(** * The consul locker of gnmic: configuration defaults and lock registry

    A shallow embedding of [lockers/consul_locker]: the configuration
    normalisation run by [Init], and the goroutines of [Lock], [KeepLock],
    [Unlock] and [Stop] as a small-step machine over the shared
    [ConsulLocker] value (two registry maps and one [sync.Mutex]), the
    channels they create and close, and the calls they issue to the
    Consul client. Line numbers in comments are those of the source file. *)

From Stdlib Require Import ZArith Lia.
From stdpp Require Import gmap strings list fin_maps.

Local Open Scope Z_scope.

(** ** Durations and the configuration *)

(** [time.Duration] is an [int64] count of nanoseconds. *)
Definition Nanosecond : Z := 1.
Definition Second : Z := 1000000000 * Nanosecond.
Definition int64_range (d : Z) : Prop := - 2 ^ 63 <= d < 2 ^ 63.

Definition defaultAddress : string := "localhost:8500".
Definition defaultSessionTTL : Z := 10 * Second.
Definition defaultRetryTimer : Z := 2 * Second.
Definition defaultDelay : Z := 15 * Second.

Record config := mkConfig {
  Address : string;
  SessionTTL : Z;
  Delay : Z;
  RetryTimer : Z;
  RenewPeriod : Z;
  Debug : bool
}.

Definition set_SessionTTL (d : Z) (c : config) : config :=
  mkConfig (Address c) d (Delay c) (RetryTimer c) (RenewPeriod c) (Debug c).
Definition set_Delay (d : Z) (c : config) : config :=
  mkConfig (Address c) (SessionTTL c) d (RetryTimer c) (RenewPeriod c) (Debug c).
Definition set_RetryTimer (d : Z) (c : config) : config :=
  mkConfig (Address c) (SessionTTL c) (Delay c) d (RenewPeriod c) (Debug c).
Definition set_RenewPeriod (d : Z) (c : config) : config :=
  mkConfig (Address c) (SessionTTL c) (Delay c) (RetryTimer c) d (Debug c).

(** [setDefaults]: five assignments in sequence, each guarded by its [if].
    Go's [/] on integers truncates towards zero, which is [Z.quot]. *)
Definition setDefaults (c : config) : config :=
  let c := if SessionTTL c <=? 0 then set_SessionTTL defaultSessionTTL c else c in
  let c := if RetryTimer c <=? 0 then set_RetryTimer defaultRetryTimer c else c in
  let c := if (RenewPeriod c <=? 0) || (RenewPeriod c >=? SessionTTL c)
           then set_RenewPeriod (SessionTTL c ÷ 2) c else c in
  let c := if Delay c <? 0 then set_Delay defaultDelay c else c in
  let c := if Delay c >? 60 * Second then set_Delay (60 * Second) c else c in
  c.

(** Errors the locker hands to its callers. *)
Inductive error :=
| ErrContext                (* ctx.Err() *)
| ErrCanceled               (* lockers.ErrCanceled *)
| ErrUnknownKey             (* errors.New("unknown key") *)
| ErrBackend (msg : string) (* whatever the Consul client returned *).

Global Instance error_eq_dec : EqDecision error.
Proof. solve_decision. Defined.

(** [Init]: decode the configuration, run [setDefaults] (it never fails),
    build the client. [decoded] is what [lockers.DecodeConfig] left in
    [c.Cfg] (or its error), [client] the error of [api.NewClient], if any. *)
Definition Init (decoded : error + config) (client : option error) : error + config :=
  match decoded with
  | inl e => inl e
  | inr c =>
      let c := setDefaults c in
      match client with
      | Some e => inl e
      | None => inr c
      end
  end.

(** A configuration is accepted by [Init] when [Init] returns no error. *)
Definition accepted (c : config) (c' : config) : Prop :=
  exists client, Init (inr c) client = inr c'.

Local Close Scope Z_scope.

(** ** The locker, its channels and the Consul client *)

(** Channels are named by the order of their [make]. *)
Record locks := mkLocks {
  sessionID : string;
  doneChan : nat
}.

Global Instance locks_eq_dec : EqDecision locks.
Proof. solve_decision. Defined.

(** Calls issued to the Consul client, in the order of the source. *)
Inductive call :=
| SessionCreate (ttl lockDelay : Z)      (* Behavior: "delete" *)
| KVAcquire (key val session : string)
| KVDelete (key : string)
| SessionDestroy (session : string)
| SessionRenewPeriodic (period : Z) (session : string) (done : nat).

(** What the goroutines share: the fields of [ConsulLocker] ([Cfg], the two
    maps, the mutex [m], here with the goroutine that locked it), and the
    run time around it: the channel allocator, every [close] executed, every
    value received from an error channel, every call sent to Consul (latest
    first), and whether the process has panicked. *)
Record Shared := mkShared {
  Cfg : config;
  acquiredlocks : gmap string locks;
  attemtinglocks : gmap string locks;
  m : option nat;
  nextChan : nat;
  closes : list nat;
  sent : list (nat * error);
  calls : list call;
  panicked : bool
}.

Definition set_acquiredlocks (a : gmap string locks) (s : Shared) : Shared :=
  mkShared (Cfg s) a (attemtinglocks s) (m s) (nextChan s) (closes s) (sent s) (calls s) (panicked s).
Definition set_attemtinglocks (a : gmap string locks) (s : Shared) : Shared :=
  mkShared (Cfg s) (acquiredlocks s) a (m s) (nextChan s) (closes s) (sent s) (calls s) (panicked s).
Definition set_m (o : option nat) (s : Shared) : Shared :=
  mkShared (Cfg s) (acquiredlocks s) (attemtinglocks s) o (nextChan s) (closes s) (sent s) (calls s) (panicked s).
Definition set_nextChan (n : nat) (s : Shared) : Shared :=
  mkShared (Cfg s) (acquiredlocks s) (attemtinglocks s) (m s) n (closes s) (sent s) (calls s) (panicked s).
Definition set_closes (l : list nat) (s : Shared) : Shared :=
  mkShared (Cfg s) (acquiredlocks s) (attemtinglocks s) (m s) (nextChan s) l (sent s) (calls s) (panicked s).
Definition set_sent (l : list (nat * error)) (s : Shared) : Shared :=
  mkShared (Cfg s) (acquiredlocks s) (attemtinglocks s) (m s) (nextChan s) (closes s) l (calls s) (panicked s).
Definition set_calls (l : list call) (s : Shared) : Shared :=
  mkShared (Cfg s) (acquiredlocks s) (attemtinglocks s) (m s) (nextChan s) (closes s) (sent s) l (panicked s).
Definition set_panicked (b : bool) (s : Shared) : Shared :=
  mkShared (Cfg s) (acquiredlocks s) (attemtinglocks s) (m s) (nextChan s) (closes s) (sent s) (calls s) b.

(** [c.m.Lock()] by goroutine [t]: blocks (no step) while the mutex is locked. *)
Definition mutex_lock (t : nat) (s : Shared) : option Shared :=
  match m s with
  | None => Some (set_m (Some t) s)
  | Some _ => None
  end.

(** [c.m.Unlock()]: a [sync.Mutex] has no owner; unlocking an unlocked one
    is a fatal error. *)
Definition mutex_unlock (s : Shared) : Shared :=
  match m s with
  | Some _ => set_m None s
  | None => set_panicked true s
  end.

(** [make(chan ...)] *)
Definition make_chan (s : Shared) : nat * Shared :=
  (nextChan s, set_nextChan (S (nextChan s)) s).

(** [close(ch)]: every executed [close] is recorded; closing a closed
    channel panics. *)
Definition close_chan (ch : nat) (s : Shared) : Shared :=
  let s' := set_closes (ch :: closes s) s in
  if bool_decide (ch ∈ closes s) then set_panicked true s' else s'.

Definition chan_closed (ch : nat) (s : Shared) : bool :=
  bool_decide (ch ∈ closes s).

(** A receiver takes [e] from the unbuffered channel [ch]. *)
Definition deliver (ch : nat) (e : error) (s : Shared) : Shared :=
  set_sent ((ch, e) :: sent s) s.

Definition log_call (c : call) (s : Shared) : Shared :=
  set_calls (c :: calls s) s.

(** What the environment decides at a step: the error of a Consul call, the
    session it created, whether the acquire won, which ready case a
    [select] takes, which key a [range] over a map yields next, and whether
    the caller is receiving from the error channel. *)
Record oracle := mkOracle {
  o_err : option string;
  o_sid : string;
  o_acquired : bool;
  o_pick : bool;
  o_key : string;
  o_recv : bool
}.

(** ** Control points *)

(** [Lock], lines 115-170. [done] is the call's [doneChan], [sid] is
    [kvPair.Session]; [r] is the value being returned while the deferred
    function runs. *)
Inductive lock_pc :=
| L_start                            (* 121: doneChan := make(chan struct{}) *)
| L_select (done : nat)              (* 128: select *)
| L_create (done : nat)              (* 135: Session().Create *)
| L_mlock1 (done : nat) (sid : string)   (* 148: c.m.Lock() *)
| L_attempt (done : nat) (sid : string)  (* 149: c.attemtinglocks[key] = ... *)
| L_munlock1 (done : nat) (sid : string) (* 150: c.m.Unlock() *)
| L_acquire (done : nat) (sid : string)  (* 151: KV().Acquire *)
| L_mlock2 (done : nat) (sid : string)   (* 159: c.m.Lock() *)
| L_held (done : nat) (sid : string)     (* 160: c.acquiredlocks[key] = ... *)
| L_munlock2 (done : nat) (sid : string) (* 161: c.m.Unlock() *)
| L_defer (r : bool * option error)      (* 123: c.m.Lock() of the deferred function *)
| L_delete (r : bool * option error)     (* 125: delete(c.attemtinglocks, key) *)
| L_dmunlock (r : bool * option error)   (* 124: deferred c.m.Unlock() *)
| L_done (r : bool * option error).      (* returned r *)

(** [Unlock], lines 200-226. *)
Inductive unlock_pc :=
| U_start                    (* 201: c.m.Lock() *)
| U_lookup                   (* 203 and 216: the two map lookups *)
| U_hclose (l : locks)       (* 204: close(lock.doneChan) *)
| U_hdelete (l : locks)      (* 205: KV().Delete *)
| U_hdestroy (l : locks)     (* 209: Session().Destroy *)
| U_hremove                  (* 213: delete(c.acquiredlocks, key) *)
| U_aclose (l : locks)       (* 217: close(lock.doneChan) *)
| U_adestroy (l : locks)     (* 218: Session().Destroy *)
| U_aremove                  (* 222: delete(c.acquiredlocks, key) *)
| U_ret (e : option error)   (* 202: deferred c.m.Unlock() *)
| U_done (e : option error). (* returned e *)

(** [Stop], lines 228-235. [seen] are the keys the [range] has yielded. *)
Inductive stop_pc :=
| S_start                                            (* 229: c.m.Lock() *)
| S_range (seen : gset string)                       (* 231: for k := range c.acquiredlocks *)
| S_unlock (seen : gset string) (k : string) (u : unlock_pc)  (* 232: inside c.Unlock(k) *)
| S_ret                                              (* 230: deferred c.m.Unlock() *)
| S_done.                                            (* returned nil *)

(** [KeepLock], lines 172-198, and the goroutine it starts. *)
Inductive keep_pc :=
| K_start                                        (* 176: c.m.Lock() *)
| K_lookup                                       (* 177-182 *)
| K_munlock (sid : string) (done : nat)          (* 183-197: c.m.Unlock(), errChan, go, return *)
| K_go (sid : string) (done errc : nat)          (* 186: (done, errc) returned; goroutine starts *)
| K_send_unknown (done errc : nat)               (* 187: errChan <- "unknown key" *)
| K_close (done errc : nat)                      (* 188: close(doneChan) *)
| K_renew (sid : string) (done errc : nat)       (* 191: inside RenewPeriodic *)
| K_send_err (e : error) (done errc : nat)       (* 193: errChan <- err *)
| K_end (done errc : nat).                       (* goroutine finished *)

Inductive goroutine :=
| GLock (key val : string) (ctx_done : bool) (pc : lock_pc)
| GKeepLock (key : string) (pc : keep_pc)
| GUnlock (key : string) (pc : unlock_pc)
| GStop (pc : stop_pc).

(** ** One step of each operation *)

Definition Lock_step (t : nat) (key val : string) (ctx_done : bool) (o : oracle)
    (pc : lock_pc) (s : Shared) : option (lock_pc * Shared) :=
  match pc with
  | L_start =>
      let '(ch, s') := make_chan s in Some (L_select ch, s')
  | L_select ch =>
      match ctx_done, chan_closed ch s with
      | true, true =>
          (* both cases are ready: select takes either *)
          Some (L_defer (false, Some (if o_pick o then ErrContext else ErrCanceled)), s)
      | true, false => Some (L_defer (false, Some ErrContext), s)
      | false, true => Some (L_defer (false, Some ErrCanceled), s)
      | false, false => Some (L_create ch, s)
      end
  | L_create ch =>
      let s' := log_call (SessionCreate (SessionTTL (Cfg s)) (Delay (Cfg s))) s in
      match o_err o with
      | Some _ => Some (L_select ch, s')   (* log, sleep RetryTimer, continue *)
      | None => Some (L_mlock1 ch (o_sid o), s')
      end
  | L_mlock1 ch sid => s' ← mutex_lock t s; Some (L_attempt ch sid, s')
  | L_attempt ch sid =>
      Some (L_munlock1 ch sid,
            set_attemtinglocks (<[key := mkLocks sid ch]> (attemtinglocks s)) s)
  | L_munlock1 ch sid => Some (L_acquire ch sid, mutex_unlock s)
  | L_acquire ch sid =>
      let s' := log_call (KVAcquire key val sid) s in
      match o_err o with
      | Some _ => Some (L_select ch, s')   (* log, sleep RetryTimer, continue *)
      | None =>
          if o_acquired o then Some (L_mlock2 ch sid, s')
          else Some (L_select ch, s')      (* sleep RetryTimer *)
      end
  | L_mlock2 ch sid => s' ← mutex_lock t s; Some (L_held ch sid, s')
  | L_held ch sid =>
      Some (L_munlock2 ch sid,
            set_acquiredlocks (<[key := mkLocks sid ch]> (acquiredlocks s)) s)
  | L_munlock2 ch sid => Some (L_defer (true, None), mutex_unlock s)
  | L_defer r => s' ← mutex_lock t s; Some (L_delete r, s')
  | L_delete r =>
      Some (L_dmunlock r, set_attemtinglocks (delete key (attemtinglocks s)) s)
  | L_dmunlock r => Some (L_done r, mutex_unlock s)
  | L_done _ => None
  end.

Definition Unlock_step (t : nat) (key : string) (o : oracle)
    (pc : unlock_pc) (s : Shared) : option (unlock_pc * Shared) :=
  match pc with
  | U_start => s' ← mutex_lock t s; Some (U_lookup, s')
  | U_lookup =>
      match acquiredlocks s !! key with
      | Some l => Some (U_hclose l, s)
      | None =>
          match attemtinglocks s !! key with
          | Some l => Some (U_aclose l, s)
          | None => Some (U_ret (Some ErrUnknownKey), s)
          end
      end
  | U_hclose l => Some (U_hdelete l, close_chan (doneChan l) s)
  | U_hdelete l =>
      let s' := log_call (KVDelete key) s in
      match o_err o with
      | Some e => Some (U_ret (Some (ErrBackend e)), s')
      | None => Some (U_hdestroy l, s')
      end
  | U_hdestroy l =>
      let s' := log_call (SessionDestroy (sessionID l)) s in
      match o_err o with
      | Some e => Some (U_ret (Some (ErrBackend e)), s')
      | None => Some (U_hremove, s')
      end
  | U_hremove => Some (U_ret None, set_acquiredlocks (delete key (acquiredlocks s)) s)
  | U_aclose l => Some (U_adestroy l, close_chan (doneChan l) s)
  | U_adestroy l =>
      let s' := log_call (SessionDestroy (sessionID l)) s in
      match o_err o with
      | Some e => Some (U_ret (Some (ErrBackend e)), s')
      | None => Some (U_aremove, s')
      end
  | U_aremove => Some (U_ret None, set_acquiredlocks (delete key (acquiredlocks s)) s)
  | U_ret e => Some (U_done e, mutex_unlock s)
  | U_done _ => None
  end.

(** The [range] yields a key of the map it has not yielded yet, and ends
    when there is none; the call [c.Unlock(k)] runs in the same goroutine. *)
Definition Stop_step (t : nat) (o : oracle) (pc : stop_pc) (s : Shared)
    : option (stop_pc * Shared) :=
  match pc with
  | S_start => s' ← mutex_lock t s; Some (S_range ∅, s')
  | S_range seen =>
      if decide (dom (acquiredlocks s) ⊆ seen) then Some (S_ret, s)
      else if decide (o_key o ∈ dom (acquiredlocks s) ∖ seen)
           then Some (S_unlock seen (o_key o) U_start, s)
           else None
  | S_unlock seen k (U_done _) => Some (S_range ({[k]} ∪ seen), s)
  | S_unlock seen k u =>
      '(u', s') ← Unlock_step t k o u s; Some (S_unlock seen k u', s')
  | S_ret => Some (S_done, mutex_unlock s)
  | S_done => None
  end.

(** [RenewPeriodic] is the Consul client's: the step at [K_renew] is its
    return, with the error of a failed renewal or with nil. When it comes,
    and with which of the two, is the environment's answer: nothing is
    assumed about the period or about [doneChan] being closed. *)
Definition KeepLock_step (t : nat) (key : string) (o : oracle)
    (pc : keep_pc) (s : Shared) : option (keep_pc * Shared) :=
  match pc with
  | K_start => s' ← mutex_lock t s; Some (K_lookup, s')
  | K_lookup =>
      let '(ch, s') := make_chan s in
      match acquiredlocks s !! key with
      | Some l => Some (K_munlock (sessionID l) (doneChan l), s')
      | None => Some (K_munlock "" ch, s')
      end
  | K_munlock sid done =>
      let '(errc, s') := make_chan (mutex_unlock s) in
      Some (K_go sid done errc, s')
  | K_go sid done errc =>
      if decide (sid = "") then Some (K_send_unknown done errc, s)
      else Some (K_renew sid done errc,
                 log_call (SessionRenewPeriodic (RenewPeriod (Cfg s)) sid done) s)
  | K_send_unknown done errc =>
      if o_recv o then Some (K_close done errc, deliver errc ErrUnknownKey s)
      else None     (* errChan is unbuffered: the send waits for a receiver *)
  | K_close done errc => Some (K_end done errc, close_chan done s)
  | K_renew sid done errc =>
      match o_err o with
      | Some e => Some (K_send_err (ErrBackend e) done errc, s)
      | None => Some (K_end done errc, s)
      end
  | K_send_err e done errc =>
      if o_recv o then Some (K_end done errc, deliver errc e s) else None
  | K_end _ _ => None
  end.

Definition gstep (t : nat) (o : oracle) (g : goroutine) (s : Shared)
    : option (goroutine * Shared) :=
  match g with
  | GLock key val ctx pc =>
      '(pc', s') ← Lock_step t key val ctx o pc s; Some (GLock key val ctx pc', s')
  | GKeepLock key pc =>
      '(pc', s') ← KeepLock_step t key o pc s; Some (GKeepLock key pc', s')
  | GUnlock key pc =>
      '(pc', s') ← Unlock_step t key o pc s; Some (GUnlock key pc', s')
  | GStop pc =>
      '(pc', s') ← Stop_step t o pc s; Some (GStop pc', s')
  end.

(** ** The machine: goroutines interleaved over the shared locker *)

Record State := mkState {
  shared : Shared;
  pool : gmap nat goroutine
}.

Inductive event :=
| EvStep (t : nat) (o : oracle)  (* goroutine t takes its next step *)
| EvCancel (t : nat).            (* the ctx of Lock call t is cancelled *)

(** A panic ends the process: nothing steps afterwards. *)
Definition step (ev : event) (st : State) : option State :=
  if panicked (shared st) then None
  else match ev with
       | EvStep t o =>
           g ← pool st !! t;
           '(g', s') ← gstep t o g (shared st);
           Some (mkState s' (<[t := g']> (pool st)))
       | EvCancel t =>
           match pool st !! t with
           | Some (GLock key val _ pc) =>
               Some (mkState (shared st) (<[t := GLock key val true pc]> (pool st)))
           | _ => None
           end
       end.

Fixpoint run (evs : list event) (st : State) : option State :=
  match evs with
  | [] => Some st
  | ev :: evs' => st' ← step ev st; run evs' st'
  end.

(** The locker as the registered factory builds it, and calls not yet begun. *)
Definition new_locker (cfg : config) : Shared :=
  mkShared cfg ∅ ∅ None 0 [] [] [] false.

Definition at_entry (g : goroutine) : bool :=
  match g with
  | GLock _ _ false L_start | GKeepLock _ K_start
  | GUnlock _ U_start | GStop S_start => true
  | _ => false
  end.

Definition initial (st : State) : Prop :=
  (∃ cfg, shared st = new_locker cfg) ∧
  ∀ t g, pool st !! t = Some g → at_entry g = true.

Definition reachable (st : State) : Prop :=
  ∃ st0 evs, initial st0 ∧ run evs st0 = Some st.

(** The environment's answers used in the examples. *)
Definition ok (sid : string) : oracle := mkOracle None sid true true "" true.
Definition busy (sid : string) : oracle := mkOracle None sid false true "" true.
Definition fails (msg : string) : oracle := mkOracle (Some msg) "" false true "" true.
Definition other_case : oracle := mkOracle None "" false false "" true.
Definition yields (k : string) : oracle := mkOracle None "" false true k true.

(** One goroutine running alone: its next steps, one per answer. *)
Fixpoint grun (t : nat) (os : list oracle) (g : goroutine) (s : Shared)
    : option (goroutine * Shared) :=
  match os with
  | [] => Some (g, s)
  | o :: os' =>
      if panicked s then None
      else '(g', s') ← gstep t o g s; grun t os' g' s'
  end.

(** ** Predicates on control points *)

(** The goroutine is between a [c.m.Lock()] and the matching [c.m.Unlock()]. *)
Definition lock_holds (pc : lock_pc) : bool :=
  match pc with
  | L_attempt _ _ | L_munlock1 _ _ | L_held _ _ | L_munlock2 _ _
  | L_delete _ | L_dmunlock _ => true
  | _ => false
  end.

Definition unlock_holds (pc : unlock_pc) : bool :=
  match pc with
  | U_start | U_done _ => false
  | _ => true
  end.

Definition stop_holds (pc : stop_pc) : bool :=
  match pc with
  | S_start | S_done => false
  | _ => true
  end.

Definition keep_holds (pc : keep_pc) : bool :=
  match pc with
  | K_lookup | K_munlock _ _ => true
  | _ => false
  end.

Definition holds (g : goroutine) : bool :=
  match g with
  | GLock _ _ _ pc => lock_holds pc
  | GKeepLock _ pc => keep_holds pc
  | GUnlock _ pc => unlock_holds pc
  | GStop pc => stop_holds pc
  end.

(** [Stop] never gets past the [c.m.Lock()] of the [Unlock] it calls. *)
Definition stop_blocked (g : goroutine) : bool :=
  match g with
  | GStop (S_unlock _ _ U_start) => true
  | GStop (S_unlock _ _ _) => false
  | _ => true
  end.

(** The [Lock] call has begun and its deferred [delete] has not run yet. *)
Definition lock_pending (pc : lock_pc) : bool :=
  match pc with
  | L_start | L_dmunlock _ | L_done _ => false
  | _ => true
  end.

Definition attempts (k : string) (g : goroutine) : bool :=
  match g with
  | GLock key _ _ pc => bool_decide (key = k) && lock_pending pc
  | _ => false
  end.

(** Channels a goroutine holds in its local variables. *)
Definition lock_chans (pc : lock_pc) : list nat :=
  match pc with
  | L_select ch | L_create ch | L_mlock1 ch _ | L_attempt ch _ | L_munlock1 ch _
  | L_acquire ch _ | L_mlock2 ch _ | L_held ch _ | L_munlock2 ch _ => [ch]
  | _ => []
  end.

Definition unlock_chans (pc : unlock_pc) : list nat :=
  match pc with
  | U_hclose l | U_hdelete l | U_hdestroy l | U_aclose l | U_adestroy l => [doneChan l]
  | _ => []
  end.

Definition keep_chans (pc : keep_pc) : list nat :=
  match pc with
  | K_munlock _ done => [done]
  | K_go _ done errc | K_send_unknown done errc | K_close done errc
  | K_renew _ done errc | K_send_err _ done errc | K_end done errc => [done; errc]
  | _ => []
  end.

Definition chans_of (g : goroutine) : list nat :=
  match g with
  | GLock _ _ _ pc => lock_chans pc
  | GKeepLock _ pc => keep_chans pc
  | GUnlock _ pc => unlock_chans pc
  | GStop (S_unlock _ _ u) => unlock_chans u
  | GStop _ => []
  end.

(** The error channel of a [KeepLock] call, and whether its goroutine may
    still send on it. *)
Definition errchan_of (g : goroutine) : option nat :=
  match g with
  | GKeepLock _ (K_go _ _ errc) | GKeepLock _ (K_send_unknown _ errc)
  | GKeepLock _ (K_close _ errc) | GKeepLock _ (K_renew _ _ errc)
  | GKeepLock _ (K_send_err _ _ errc) | GKeepLock _ (K_end _ errc) => Some errc
  | _ => None
  end.

Definition may_send (g : goroutine) : bool :=
  match g with
  | GKeepLock _ (K_go _ _ _) | GKeepLock _ (K_send_unknown _ _)
  | GKeepLock _ (K_renew _ _ _) | GKeepLock _ (K_send_err _ _ _) => true
  | _ => false
  end.

(** ** Invariants of the machine *)

(** Only the goroutine that locked [c.m] is inside a critical section. *)
Definition mutex_inv (st : State) : Prop :=
  ∀ t g, pool st !! t = Some g →
    stop_blocked g = true ∧ (holds g = true → m (shared st) = Some t).

(** Once the deferred function of [Lock] has deleted the key, it stays
    deleted until that function unlocks. *)
Definition cleanup_inv (st : State) : Prop :=
  ∀ t key val ctx r, pool st !! t = Some (GLock key val ctx (L_dmunlock r)) →
    attemtinglocks (shared st) !! key = None.

(** A key is in [attemtinglocks] only while a [Lock] call on it is pending. *)
Definition attempting_inv (st : State) : Prop :=
  ∀ k, is_Some (attemtinglocks (shared st) !! k) →
    ∃ t g, pool st !! t = Some g ∧ attempts k g = true.

(** Every channel in use was made before: it is below the allocator. *)
Definition chans_below (s : Shared) : Prop :=
  (∀ k l, acquiredlocks s !! k = Some l → doneChan l < nextChan s) ∧
  (∀ k l, attemtinglocks s !! k = Some l → doneChan l < nextChan s) ∧
  (∀ ch, ch ∈ closes s → ch < nextChan s) ∧
  (∀ ch, ch ∈ (sent s).*1 → ch < nextChan s).

Definition chans_inv (st : State) : Prop :=
  (∀ t g ch, pool st !! t = Some g → ch ∈ chans_of g → ch < nextChan (shared st)) ∧
  chans_below (shared st).

(** Error channels are not shared, and each carries at most one value. *)
Definition errchan_inv (st : State) : Prop :=
  let s := shared st in
  NoDup (sent s).*1 ∧
  (∀ t g c, pool st !! t = Some g → errchan_of g = Some c →
     may_send g = true → c ∉ (sent s).*1) ∧
  (∀ t1 t2 g1 g2 c, pool st !! t1 = Some g1 → pool st !! t2 = Some g2 →
     errchan_of g1 = Some c → errchan_of g2 = Some c → t1 = t2).

(** [Stop], goroutine [t], has locked [c.m] over the non-empty map [A] and
    is in its loop. *)
Definition stop_waiting (t : nat) (A : gmap string locks) (st : State) : Prop :=
  mutex_inv st ∧ m (shared st) = Some t ∧ acquiredlocks (shared st) = A ∧
  (pool st !! t = Some (GStop (S_range ∅)) ∨
   ∃ k, is_Some (A !! k) ∧ pool st !! t = Some (GStop (S_unlock ∅ k U_start))).

Definition Inv (st : State) : Prop :=
  mutex_inv st ∧ cleanup_inv st ∧ attempting_inv st ∧ chans_inv st ∧ errchan_inv st.

(** No key is in both maps. *)
Definition disjoint_registry (s : Shared) : Prop :=
  ∀ k, ¬ (is_Some (attemtinglocks s !! k) ∧ is_Some (acquiredlocks s !! k)).

(** ** Scenarios *)

Definition cfg0 : config := setDefaults (mkConfig "" 0 0 0 0 false).

(** One [Lock] call on an empty locker; with [Unlock] beside it; with
    [Stop] beside it; with two [Unlock] calls; one [KeepLock] call. *)
Definition lock_alone : State :=
  mkState (new_locker cfg0) {[ 0 := GLock "k" "v" false L_start ]}.
Definition lock_and_unlock : State :=
  mkState (new_locker cfg0)
    {[ 0 := GLock "k" "v" false L_start; 1 := GUnlock "k" U_start ]}.
Definition lock_and_stop : State :=
  mkState (new_locker cfg0) {[ 0 := GLock "k" "v" false L_start; 1 := GStop S_start ]}.
Definition lock_and_two_unlocks : State :=
  mkState (new_locker cfg0)
    {[ 0 := GLock "k" "v" false L_start; 1 := GUnlock "k" U_start;
       2 := GUnlock "k" U_start ]}.
Definition keeplock_alone : State :=
  mkState (new_locker cfg0) {[ 0 := GKeepLock "k" K_start ]}.

(** [Lock] up to the successful acquire (10 steps: the key is in both maps),
    then its deferred cleanup (3 steps). *)
Definition acquire_evs : list event := replicate 10 (EvStep 0 (ok "s1")).
Definition lock_evs : list event := replicate 13 (EvStep 0 (ok "s1")).
(** [Lock] through one lost acquire, back at its [select] (7 steps). *)
Definition contend_evs : list event := replicate 7 (EvStep 0 (busy "s1")).

(** The locker when [Lock] has won the acquire and released the mutex. *)
Definition lock_acquired : State :=
  mkState
    (mkShared cfg0 {[ "k" := mkLocks "s1" 0 ]} {[ "k" := mkLocks "s1" 0 ]} None 1 [] []
       [KVAcquire "k" "v" "s1"; SessionCreate (SessionTTL cfg0) (Delay cfg0)] false)
    {[ 0 := GLock "k" "v" false (L_defer (true, None)) ]}.

(** The locker after the [Lock] call has returned (true, nil). *)
Definition lock_returned : State :=
  mkState
    (mkShared cfg0 {[ "k" := mkLocks "s1" 0 ]} ∅ None 1 [] []
       [KVAcquire "k" "v" "s1"; SessionCreate (SessionTTL cfg0) (Delay cfg0)] false)
    {[ 0 := GLock "k" "v" false (L_done (true, None)) ]}.

(** [Lock] lost one acquire, [Unlock] then closed its channel, and the
    caller cancelled its context: both cases of the [select] are ready. *)
Definition cancel_evs : list event :=
  contend_evs ++ replicate 6 (EvStep 1 (ok "")) ++ [EvCancel 0].

Definition lock_cancelled_twice : State :=
  mkState
    (mkShared cfg0 ∅ {[ "k" := mkLocks "s1" 0 ]} None 1 [0] []
       [SessionDestroy "s1"; KVAcquire "k" "v" "s1";
        SessionCreate (SessionTTL cfg0) (Delay cfg0)] false)
    {[ 0 := GLock "k" "v" true (L_select 0); 1 := GUnlock "k" (U_done None) ]}.

(** [Lock] is contending for the key when [Unlock] is called. *)
Definition lock_contending : State :=
  mkState
    (mkShared cfg0 ∅ {[ "k" := mkLocks "s1" 0 ]} None 1 [] []
       [KVAcquire "k" "v" "s1"; SessionCreate (SessionTTL cfg0) (Delay cfg0)] false)
    {[ 0 := GLock "k" "v" false (L_select 0); 1 := GUnlock "k" U_start ]}.

(** The key is held when [Unlock] is called twice, or [Stop] once. *)
Definition held_two_unlocks : State :=
  mkState (shared lock_returned)
    {[ 0 := GLock "k" "v" false (L_done (true, None)); 1 := GUnlock "k" U_start;
       2 := GUnlock "k" U_start ]}.
Definition held_stop : State :=
  mkState (shared lock_returned)
    {[ 0 := GLock "k" "v" false (L_done (true, None)); 1 := GStop S_start ]}.

(** ** Rounds of the acquisition loop *)







(** The key a call works on; [Stop] works on all of them. *)
Definition key_of (g : goroutine) : option string :=
  match g with
  | GLock key _ _ _ | GKeepLock key _ | GUnlock key _ => Some key
  | GStop _ => None
  end.

(** The value [Lock] is returning or has returned. *)
Definition lock_result (pc : lock_pc) : option (bool * option error) :=
  match pc with
  | L_defer r | L_delete r | L_dmunlock r | L_done r => Some r
  | _ => None
  end.

(** The context of the [Lock] call is cancelled before its first step. *)
Definition lock_cancelled_early : State :=
  mkState (new_locker cfg0) {[ 0 := GLock "k" "v" true L_start ]}.

(** [Unlock] is called while [Lock] is between line 161 and its deferred
    function. *)
Definition acquired_and_unlock : State :=
  mkState (shared lock_acquired)
    {[ 0 := GLock "k" "v" false (L_defer (true, None)); 1 := GUnlock "k" U_start ]}.

(** The acquire of [Lock] has won with this session. *)
Definition won (g : goroutine) : option (string * string * string) :=
  match g with
  | GLock key val _ (L_mlock2 _ sid) | GLock key val _ (L_held _ sid) => Some (key, val, sid)
  | _ => None
  end.

(** Every entry of [acquiredlocks] was acquired in Consul under its session. *)
Definition acquire_inv (st : State) : Prop :=
  (∀ k l, acquiredlocks (shared st) !! k = Some l →
     ∃ val, KVAcquire k val (sessionID l) ∈ calls (shared st)) ∧
  (∀ t g key val sid, pool st !! t = Some g → won g = Some (key, val, sid) →
     KVAcquire key val sid ∈ calls (shared st)).

(** The values [Lock] returns. *)
Definition result_inv (st : State) : Prop :=
  ∀ t key val ctx pc r, pool st !! t = Some (GLock key val ctx pc) →
    lock_result pc = Some r →
    r = (true, None) ∨ (r = (false, Some ErrContext) ∧ ctx = true) ∨
    r = (false, Some ErrCanceled).

(** Until the process panics no channel has been closed twice. *)
Definition closes_inv (st : State) : Prop :=
  if panicked (shared st) then ¬ NoDup (closes (shared st))
  else NoDup (closes (shared st)).

(** Every call in the pool is on a key other than [k]. *)
Definition avoids (k : string) (st : State) : Prop :=
  ∀ t g, pool st !! t = Some g → key_of g ≠ None ∧ key_of g ≠ Some k.

(** [Lock], then [KeepLock], then [Unlock], all on one key: the calls not
    yet begun; [KeepLock] called with the key held. *)
Definition lock_keep_unlock : State :=
  mkState (new_locker cfg0)
    {[ 0 := GLock "k" "v" false L_start; 1 := GKeepLock "k" K_start;
       2 := GUnlock "k" U_start ]}.
Definition held_keep : State :=
  mkState (shared lock_returned)
    {[ 0 := GLock "k" "v" false (L_done (true, None)); 1 := GKeepLock "k" K_start;
       2 := GUnlock "k" U_start ]}.
(** ** The gNMI action: [WithTargets] *)

Section GnmiAction.
(** [types.TargetConfig] and the action's own [targetConfig] are declared
    elsewhere; [DecodeConfig tc] is what [actions.DecodeConfig(tc, ltc)]
    leaves in the new [ltc], with its error. *)
Context {TargetConfig targetConfig : Type}.
Variable DecodeConfig : TargetConfig → targetConfig * option string.

(** The fields [WithTargets] uses: the map it fills and the lines it
    prints to [g.logger], latest first. *)
Record gnmiAction := mkGnmiAction {
  targetsConfigs : gmap string targetConfig;
  logger : list string
}.

(** The body of the loop, lines 15-20: the entry is stored whether or not
    the decoding failed. *)
Definition WithTargets_body (g : gnmiAction) (e : string * TargetConfig) : gnmiAction :=
  let '(n, tc) := e in
  let '(ltc, err) := DecodeConfig tc in
  let lines := match err with
               | Some msg => msg :: logger g
               | None => logger g
               end in
  mkGnmiAction (<[n := ltc]> (targetsConfigs g)) lines.

(** [for n, tc := range tcs]: the entries of [tcs] in the order [l] the
    runtime picks. *)
Definition WithTargets (l : list (string * TargetConfig)) (g : gnmiAction) : gnmiAction :=
  foldl WithTargets_body g l.

Definition range_order (tcs : gmap string TargetConfig)
    (l : list (string * TargetConfig)) : Prop :=
  l ≡ₚ map_to_list tcs.
End GnmiAction.

Arguments gnmiAction : clear implicits.
Arguments mkGnmiAction {targetConfig} _ _.

(** The call has returned to its caller ([KeepLock] returns when it starts
    its goroutine). *)
Definition returned (g : goroutine) : bool :=
  match g with
  | GLock _ _ _ (L_done _) | GUnlock _ (U_done _) | GStop S_done => true
  | GKeepLock _ pc =>
      match pc with K_start | K_lookup | K_munlock _ _ => false | _ => true end
  | _ => false
  end.

(** [Stop] holds the mutex at the head of its loop. *)
Definition stop_locked : State :=
  mkState (set_m (Some 1) (shared lock_returned))
    {[ 0 := GLock "k" "v" false (L_done (true, None)); 1 := GStop (S_range ∅);
       2 := GUnlock "k" U_start ]}.
Definition lock_stop_unlock : State :=
  mkState (new_locker cfg0)
    {[ 0 := GLock "k" "v" false L_start; 1 := GStop S_start; 2 := GUnlock "k" U_start ]}.

(** Two [Lock] calls on one key, the first contending, the second with a
    cancelled context and not yet begun, and an [Unlock]. *)
Definition two_locks : State :=
  mkState (new_locker cfg0)
    {[ 0 := GLock "k" "v" false L_start; 1 := GLock "k" "w" false L_start;
       2 := GUnlock "k" U_start ]}.
Definition two_locks_contending : State :=
  mkState (shared lock_contending)
    {[ 0 := GLock "k" "v" false (L_select 0); 1 := GLock "k" "w" true L_start;
       2 := GUnlock "k" U_start ]}.



(** Nobody receives from an error channel while the event takes place. *)
Definition no_receiver (ev : event) : Prop :=
  match ev with
  | EvStep _ o => o_recv o = false
  | EvCancel _ => True
  end.

(** [KeepLock] on a key that is not held has not got past its send. *)
Definition keep_unsent (pc : keep_pc) : bool :=
  match pc with
  | K_start | K_lookup | K_send_unknown _ _ => true
  | K_munlock sid _ | K_go sid _ _ => bool_decide (sid = "")
  | _ => false
  end.

(** That call is the only one on a locker that holds nothing and has
    closed nothing. *)
Definition waits_for_receiver (t : nat) (key : string) (st : State) : Prop :=
  acquiredlocks (shared st) = ∅ ∧ closes (shared st) = [] ∧ sent (shared st) = [] ∧
  ∃ pc, pool st = {[ t := GKeepLock key pc ]} ∧ keep_unsent pc = true.

(** [KeepLock] has returned the channels of a held key and its goroutine
    is about to call [RenewPeriodic], when [Unlock] is called. *)
Definition keep_started : State :=
  mkState
    (mkShared cfg0 {[ "k" := mkLocks "s1" 0 ]} ∅ None 3 [] []
       [KVAcquire "k" "v" "s1"; SessionCreate (SessionTTL cfg0) (Delay cfg0)] false)
    {[ 0 := GLock "k" "v" false (L_done (true, None));
       1 := GKeepLock "k" (K_go "s1" 0 2); 2 := GUnlock "k" U_start ]}.

(** * Theorems *)

(** ** Configuration defaults *)

Section Defaults.
Local Open Scope Z_scope.

Lemma quot2_between (x : Z) : 2 <= x -> 0 < x ÷ 2 < x.
Proof.
  intros Hx. rewrite Z.quot_div_nonneg by lia.
  split.
  - apply Z.div_str_pos. lia.
  - apply Z.div_lt; lia.
Qed.

Lemma quot2_bounds (x : Z) : 0 < x -> 0 <= x ÷ 2 <= x.
Proof.
  intros Hx. rewrite Z.quot_div_nonneg by lia. split.
  - apply Z.div_pos; lia.
  - apply Z.div_le_upper_bound; lia.
Qed.

Lemma accepted_setDefaults (c c' : config) : accepted c c' -> c' = setDefaults c.
Proof.
  intros [client H]. unfold Init in H.
  destruct client; [discriminate | congruence].
Qed.

Lemma setDefaults_accepted (c : config) : accepted c (setDefaults c).
Proof. exists None. reflexivity. Qed.

(** The fields after [setDefaults], one by one. *)
Lemma setDefaults_fields (c : config) :
  let ttl := if SessionTTL c <=? 0 then defaultSessionTTL else SessionTTL c in
  setDefaults c =
    mkConfig (Address c) ttl
      (if Delay c <? 0 then defaultDelay
       else if Delay c >? 60 * Second then 60 * Second else Delay c)
      (if RetryTimer c <=? 0 then defaultRetryTimer else RetryTimer c)
      (if (RenewPeriod c <=? 0) || (RenewPeriod c >=? ttl) then ttl ÷ 2 else RenewPeriod c)
      (Debug c).
Proof.
  destruct c as [a ttl d rt rp dbg].
  unfold setDefaults, set_SessionTTL, set_RetryTimer, set_RenewPeriod, set_Delay.
  cbn -[Z.leb Z.ltb Z.geb Z.gtb Z.quot Z.mul].
  destruct (ttl <=? 0); cbn -[Z.leb Z.ltb Z.geb Z.gtb Z.quot Z.mul];
    (destruct (rt <=? 0); cbn -[Z.leb Z.ltb Z.geb Z.gtb Z.quot Z.mul];
     match goal with |- context [?a || ?b] => destruct (a || b) end;
     cbn -[Z.leb Z.ltb Z.geb Z.gtb Z.quot Z.mul];
     (destruct (d <? 0) eqn:Ed; cbn -[Z.leb Z.ltb Z.geb Z.gtb Z.quot Z.mul];
      [ reflexivity | destruct (d >? 60 * Second); reflexivity ])).
Qed.

Lemma setDefaults_SessionTTL (c : config) :
  SessionTTL (setDefaults c) =
    if SessionTTL c <=? 0 then defaultSessionTTL else SessionTTL c.
Proof. by rewrite setDefaults_fields. Qed.

Lemma setDefaults_RetryTimer (c : config) :
  RetryTimer (setDefaults c) =
    if RetryTimer c <=? 0 then defaultRetryTimer else RetryTimer c.
Proof. by rewrite setDefaults_fields. Qed.

Lemma setDefaults_RenewPeriod (c : config) :
  RenewPeriod (setDefaults c) =
    if (RenewPeriod c <=? 0) || (RenewPeriod c >=? SessionTTL (setDefaults c))
    then SessionTTL (setDefaults c) ÷ 2 else RenewPeriod c.
Proof. by rewrite setDefaults_fields. Qed.

Lemma setDefaults_Delay (c : config) :
  Delay (setDefaults c) =
    if Delay c <? 0 then defaultDelay
    else if Delay c >? 60 * Second then 60 * Second else Delay c.
Proof. by rewrite setDefaults_fields. Qed.

Lemma setDefaults_Address (c : config) : Address (setDefaults c) = Address c.
Proof. by rewrite setDefaults_fields. Qed.

Lemma setDefaults_Debug (c : config) : Debug (setDefaults c) = Debug c.
Proof. by rewrite setDefaults_fields. Qed.

Ltac unfold_consts :=
  unfold defaultSessionTTL, defaultRetryTimer, defaultDelay, Second, Nanosecond in *.

Ltac split_ifs :=
  repeat match goal with
    | |- context [if ?b then _ else _] =>
        lazymatch b with context [if _ then _ else _] => fail | _ => idtac end;
        let E := fresh "E" in destruct b eqn:E
    end.

Ltac to_Z_props :=
  repeat match goal with
    | H : (_ || _) = true |- _ => apply orb_true_iff in H; destruct H
    | H : (_ || _) = false |- _ => apply orb_false_iff in H; destruct H
    | H : (_ <=? _) = true |- _ => apply Z.leb_le in H
    | H : (_ <=? _) = false |- _ => apply Z.leb_gt in H
    | H : (_ <? _) = true |- _ => apply Z.ltb_lt in H
    | H : (_ <? _) = false |- _ => apply Z.ltb_ge in H
    | H : (_ >=? _) = true |- _ => rewrite Z.geb_leb in H
    | H : (_ >=? _) = false |- _ => rewrite Z.geb_leb in H
    | H : (_ >? _) = true |- _ => rewrite Z.gtb_ltb in H
    | H : (_ >? _) = false |- _ => rewrite Z.gtb_ltb in H
    end.

(** Case analysis on every guard, then linear arithmetic, with the bounds
    of the halved TTL at hand. *)
Ltac solve_defaults :=
  unfold_consts; split_ifs; to_Z_props;
  try match goal with
    | |- context [?x ÷ 2] =>
        pose proof (quot2_bounds x); try pose proof (quot2_between x)
    end;
  first [ reflexivity | lia ].

Lemma setDefaults_SessionTTL_pos (c : config) : 0 < SessionTTL (setDefaults c).
Proof. rewrite setDefaults_SessionTTL. solve_defaults. Qed.

Lemma setDefaults_RetryTimer_pos (c : config) : 0 < RetryTimer (setDefaults c).
Proof. rewrite setDefaults_RetryTimer. solve_defaults. Qed.

Lemma setDefaults_Delay_range (c : config) : 0 <= Delay (setDefaults c) <= 60 * Second.
Proof. rewrite setDefaults_Delay. solve_defaults. Qed.

(** No assignment of [setDefaults] leaves the range of [int64]. *)
Lemma setDefaults_int64 (c : config) :
  int64_range (SessionTTL c) -> int64_range (Delay c) ->
  int64_range (RetryTimer c) -> int64_range (RenewPeriod c) ->
  int64_range (SessionTTL (setDefaults c)) ∧ int64_range (Delay (setDefaults c)) ∧
  int64_range (RetryTimer (setDefaults c)) ∧ int64_range (RenewPeriod (setDefaults c)).
Proof.
  unfold int64_range. intros Ht Hd Hr Hp.
  rewrite setDefaults_RenewPeriod, setDefaults_Delay, setDefaults_RetryTimer,
    setDefaults_SessionTTL.
  split_and!; solve_defaults.
Qed.




(** C8, as stated, fails: an unset delay is the zero value, which
    [setDefaults] keeps. *)
Lemma C8_unset_delay_stays_zero :
  ~ (forall c c', accepted c c' -> Delay c = 0 -> Delay c' = defaultDelay).
Proof.
  intros H.
  specialize (H (mkConfig "" 0 0 0 0 false) _ (setDefaults_accepted _) eq_refl).
  vm_compute in H. discriminate.
Qed.

(** C8, amended: after [Init] a negative lock delay has become the default
    of 15 s, and an unset one (zero) is still zero. *)
Theorem C8_negative_delay_defaults (c c' : config) :
  accepted c c' ->
  (Delay c < 0 -> Delay c' = defaultDelay ∧ defaultDelay = 15 * Second) ∧
  (Delay c = 0 -> Delay c' = 0).
Proof.
  intros Hacc. apply accepted_setDefaults in Hacc. subst c'.
  rewrite setDefaults_Delay. split.
  - intros Hneg. split; [solve_defaults | reflexivity].
  - intros ->. reflexivity.
Qed.

Lemma C8_negative_delay_defaults_witness :
  let c := mkConfig "" 0 (-1) 0 0 true in
  (Delay c < 0 -> Delay (setDefaults c) = defaultDelay ∧ defaultDelay = 15 * Second) ∧
  (Delay c = 0 -> Delay (setDefaults c) = 0).
Proof.
  intros c. apply (C8_negative_delay_defaults c (setDefaults c)).
  exists None. reflexivity.
Defined.

(** C10: [setDefaults] keeps the address and the debug flag, keeps each
    duration that is already in range, and is idempotent. *)
Theorem C10_setDefaults_frame (c : config) :
  Address (setDefaults c) = Address c ∧
  Debug (setDefaults c) = Debug c ∧
  (0 < SessionTTL c -> SessionTTL (setDefaults c) = SessionTTL c) ∧
  (0 < RetryTimer c -> RetryTimer (setDefaults c) = RetryTimer c) ∧
  (0 < RenewPeriod c < SessionTTL c -> RenewPeriod (setDefaults c) = RenewPeriod c) ∧
  (0 <= Delay c <= 60 * Second -> Delay (setDefaults c) = Delay c) ∧
  setDefaults (setDefaults c) = setDefaults c.
Proof.
  assert (Httl : ∀ c0, 0 < SessionTTL c0 -> SessionTTL (setDefaults c0) = SessionTTL c0).
  { intros c0 H. rewrite setDefaults_SessionTTL. solve_defaults. }
  assert (Hrt : ∀ c0, 0 < RetryTimer c0 -> RetryTimer (setDefaults c0) = RetryTimer c0).
  { intros c0 H. rewrite setDefaults_RetryTimer. solve_defaults. }
  assert (Hrp : ∀ c0, 0 < RenewPeriod c0 < SessionTTL c0 ->
                       RenewPeriod (setDefaults c0) = RenewPeriod c0).
  { intros c0 H. rewrite setDefaults_RenewPeriod, setDefaults_SessionTTL. solve_defaults. }
  assert (Hd : ∀ c0, 0 <= Delay c0 <= 60 * Second -> Delay (setDefaults c0) = Delay c0).
  { intros c0 H. rewrite setDefaults_Delay. solve_defaults. }
  split_and!; auto using setDefaults_Address, setDefaults_Debug.
  (* a second pass finds every duration in range, or the renew period
     already at half the TTL *)
  pose proof (setDefaults_SessionTTL_pos c) as Pt.
  pose proof (setDefaults_RetryTimer_pos c) as Pr.
  pose proof (setDefaults_Delay_range c) as Pd.
  assert (Pp : RenewPeriod (setDefaults (setDefaults c)) = RenewPeriod (setDefaults c)).
  { rewrite (setDefaults_RenewPeriod (setDefaults c)), (Httl _ Pt).
    pose proof (setDefaults_RenewPeriod c) as E. revert E Pt.
    generalize (RenewPeriod (setDefaults c)) as rp', (SessionTTL (setDefaults c)) as ttl.
    intros rp' ttl E Pt.
    destruct ((RenewPeriod c <=? 0) || (RenewPeriod c >=? ttl)) eqn:E0; subst rp'.
    - by destruct ((ttl ÷ 2 <=? 0) || (ttl ÷ 2 >=? ttl)).
    - solve_defaults. }
  specialize (Httl _ Pt). specialize (Hrt _ Pr). specialize (Hd _ Pd).
  pose proof (setDefaults_Address (setDefaults c)) as Pa.
  pose proof (setDefaults_Debug (setDefaults c)) as Pg.
  destruct (setDefaults (setDefaults c)), (setDefaults c). simpl in *. congruence.
Qed.

End Defaults.

(** ** How the machine steps *)

Lemma step_EvStep (t : nat) (o : oracle) (st st' : State) :
  step (EvStep t o) st = Some st' →
  panicked (shared st) = false ∧
  ∃ g g' s', pool st !! t = Some g ∧ gstep t o g (shared st) = Some (g', s') ∧
             st' = mkState s' (<[t := g']> (pool st)).
Proof.
  unfold step. destruct (panicked (shared st)); [discriminate|].
  destruct (pool st !! t) as [g|] eqn:Hg; [|discriminate]. simpl.
  destruct (gstep t o g (shared st)) as [[g' s']|] eqn:Hs; [|discriminate]. simpl.
  intros [= <-]. split; [reflexivity|]. by exists g, g', s'.
Qed.

Lemma step_EvCancel (t : nat) (st st' : State) :
  step (EvCancel t) st = Some st' →
  panicked (shared st) = false ∧
  ∃ key val ctx pc, pool st !! t = Some (GLock key val ctx pc) ∧
    st' = mkState (shared st) (<[t := GLock key val true pc]> (pool st)).
Proof.
  unfold step. destruct (panicked (shared st)); [discriminate|].
  destruct (pool st !! t) as [[key val ctx pc| | |]|] eqn:Hg; try discriminate.
  intros [= <-]. split; [reflexivity|]. by exists key, val, ctx, pc.
Qed.

Lemma run_app (evs1 evs2 : list event) (st : State) :
  run (evs1 ++ evs2) st = run evs1 st ≫= run evs2.
Proof.
  revert st. induction evs1 as [|ev evs1 IH]; intros st; simpl; [reflexivity|].
  destruct (step ev st); simpl; [apply IH | reflexivity].
Qed.

(** A property kept by every step holds along every run. *)
Lemma run_invariant (P : State → Prop) :
  (∀ ev st st', P st → step ev st = Some st' → P st') →
  ∀ evs st st', P st → run evs st = Some st' → P st'.
Proof.
  intros Hstep evs. induction evs as [|ev evs IH]; intros st st' HP Hrun; simpl in Hrun.
  - congruence.
  - destruct (step ev st) as [st1|] eqn:E; [|discriminate]. simpl in Hrun. eauto.
Qed.

(** Running one goroutine alone is a run of the machine. *)
Lemma grun_run (t : nat) (os : list oracle) (st : State) (g g' : goroutine) (s' : Shared) :
  pool st !! t = Some g →
  grun t os g (shared st) = Some (g', s') →
  run (EvStep t <$> os) st = Some (mkState s' (<[t := g']> (pool st))).
Proof.
  revert st g. induction os as [|o os IH]; intros [s p] g Hg Hrun; simpl in *.
  - injection Hrun as <- <-. by rewrite insert_id.
  - unfold step. simpl. destruct (panicked s); [discriminate|].
    rewrite Hg. simpl. destruct (gstep t o g s) as [[g1 s1]|]; [|discriminate]. simpl in *.
    rewrite (IH (mkState s1 (<[t := g1]> p)) g1); simpl.
    + by rewrite insert_insert_eq.
    + by rewrite lookup_insert_eq.
    + done.
Qed.

Ltac unfold_ops :=
  unfold mutex_lock, mutex_unlock, make_chan, close_chan, chan_closed, deliver, log_call,
    set_acquiredlocks, set_attemtinglocks, set_m, set_nextChan, set_closes, set_sent,
    set_calls, set_panicked in *.

(** Case analysis on the control point of a step that was taken. *)
Ltac step_cases H :=
  match type of H with
  | gstep _ _ ?g _ = Some _ =>
      destruct g as [? ? ? [] | ? [] | ? [] | [ | | ? ? [] | | ]];
      simpl in H; unfold_ops;
      repeat (first [ discriminate
                    | progress simplify_option_eq
                    | progress case_match ])
  end.

(** ** The mutex *)

Lemma gstep_mutex (t : nat) (o : oracle) (g g' : goroutine) (s s' : Shared) :
  gstep t o g s = Some (g', s') →
  stop_blocked g = true → (holds g = true → m s = Some t) →
  stop_blocked g' = true ∧ (holds g' = true → m s' = Some t) ∧
  (m s' = m s ∨ m s = None ∨ holds g = true).
Proof.
  intros H Hb Hh. step_cases H; simpl in *;
    try (specialize (Hh eq_refl)); repeat split; auto; try congruence.
Qed.

Lemma mutex_inv_step (ev : event) (st st' : State) :
  mutex_inv st → step ev st = Some st' → mutex_inv st'.
Proof.
  intros Hinv Hstep. destruct ev as [t o | t].
  - apply step_EvStep in Hstep as (_ & g & g' & s' & Hg & Hs & ->).
    destruct (Hinv t g Hg) as [Hb Hh].
    destruct (gstep_mutex _ _ _ _ _ _ Hs Hb Hh) as (Hb' & Hh' & Hm).
    intros t2 g2 Hl. simpl in *.
    destruct (decide (t = t2)) as [<- | Hne].
    + rewrite lookup_insert_eq in Hl. injection Hl as <-. done.
    + rewrite lookup_insert_ne in Hl by done.
      destruct (Hinv t2 g2 Hl) as [Hb2 Hh2]. split; [done|].
      intros Hholds. specialize (Hh2 Hholds).
      destruct Hm as [-> | [Hm | Hm]]; [done | congruence |].
      specialize (Hh Hm). congruence.
  - apply step_EvCancel in Hstep as (_ & key & val & ctx & pc & Hg & ->).
    intros t2 g2 Hl. simpl in *.
    destruct (decide (t = t2)) as [<- | Hne].
    + rewrite lookup_insert_eq in Hl. injection Hl as <-.
      exact (Hinv t _ Hg).
    + rewrite lookup_insert_ne in Hl by done. exact (Hinv t2 g2 Hl).
Qed.

(** The maps are written only inside a critical section. *)
Lemma gstep_registry (t : nat) (o : oracle) (g g' : goroutine) (s s' : Shared) :
  gstep t o g s = Some (g', s') → holds g = false →
  acquiredlocks s' = acquiredlocks s ∧ attemtinglocks s' = attemtinglocks s.
Proof. intros H Hh. step_cases H; simpl in *; done. Qed.

Lemma gstep_deleted (t : nat) (o : oracle) (g : goroutine) (s s' : Shared)
    (key val : string) (ctx : bool) (r : bool * option error) :
  gstep t o g s = Some (GLock key val ctx (L_dmunlock r), s') →
  attemtinglocks s' !! key = None.
Proof. intros H. step_cases H; simpl. apply lookup_delete_eq. Qed.

Lemma cleanup_inv_step (ev : event) (st st' : State) :
  mutex_inv st → cleanup_inv st → step ev st = Some st' → cleanup_inv st'.
Proof.
  intros Hmu Hinv Hstep. destruct ev as [t o | t].
  - apply step_EvStep in Hstep as (_ & g & g' & s' & Hg & Hs & ->).
    intros t2 key val ctx r Hl. simpl in *.
    destruct (decide (t = t2)) as [<- | Hne].
    + rewrite lookup_insert_eq in Hl. injection Hl as ->.
      eapply gstep_deleted; eassumption.
    + rewrite lookup_insert_ne in Hl by done.
      destruct (holds g) eqn:Hh.
      * destruct (Hmu t g Hg) as [_ Ht]. destruct (Hmu t2 _ Hl) as [_ Ht2].
        specialize (Ht Hh). specialize (Ht2 eq_refl). congruence.
      * destruct (gstep_registry _ _ _ _ _ _ Hs Hh) as [_ ->]. eauto.
  - apply step_EvCancel in Hstep as (_ & key & val & ctx & pc & Hg & ->).
    intros t2 key2 val2 ctx2 r Hl. simpl in *.
    destruct (decide (t = t2)) as [<- | Hne].
    + rewrite lookup_insert_eq in Hl. injection Hl as <- <- <- ->. eauto.
    + rewrite lookup_insert_ne in Hl by done. eauto.
Qed.

(** ** Keys under attempt *)

Lemma gstep_attempts (t : nat) (o : oracle) (g g' : goroutine) (s s' : Shared) (k : string) :
  gstep t o g s = Some (g', s') →
  is_Some (attemtinglocks s' !! k) →
  attempts k g' = true ∨ (is_Some (attemtinglocks s !! k) ∧ attempts k g = false).
Proof.
  intros H Hk.
  step_cases H; simpl in *;
    try (left; reflexivity);
    try (right; split; [assumption | reflexivity]).
  - rewrite lookup_insert_ne in Hk by done. by right.
  - rewrite lookup_delete_eq in Hk. by destruct Hk.
  - rewrite lookup_delete_ne in Hk by done. by right.
Qed.

Lemma attempting_inv_step (ev : event) (st st' : State) :
  attempting_inv st → step ev st = Some st' → attempting_inv st'.
Proof.
  intros Hinv Hstep. destruct ev as [t o | t].
  - apply step_EvStep in Hstep as (_ & g & g' & s' & Hg & Hs & ->).
    intros k Hk. simpl in *.
    destruct (gstep_attempts _ _ _ _ _ _ k Hs Hk) as [Ha | [Hold Ha]].
    + exists t, g'. by rewrite lookup_insert_eq.
    + destruct (Hinv k Hold) as (t0 & g0 & Hl0 & Ha0).
      exists t0, g0. split; [|done].
      rewrite lookup_insert_ne; [done|]. intros ->. congruence.
  - apply step_EvCancel in Hstep as (_ & key & val & ctx & pc & Hg & ->).
    intros k Hk. simpl in *.
    destruct (Hinv k Hk) as (t0 & g0 & Hl0 & Ha0).
    destruct (decide (t = t0)) as [<- | Hne].
    + exists t, (GLock key val true pc). rewrite lookup_insert_eq. split; [done|].
      rewrite Hg in Hl0. injection Hl0 as <-. exact Ha0.
    + exists t0, g0. by rewrite lookup_insert_ne.
Qed.

(** ** Channels *)

Lemma errchan_in_chans (g : goroutine) (c : nat) :
  errchan_of g = Some c → c ∈ chans_of g.
Proof.
  destruct g as [? ? ? ? | ? [] | ? ? | ?]; simpl; intros [= <-]; set_solver.
Qed.

(** Closes a goal [ch < nextChan _] from what is known of the channels. *)
Ltac chan_lt Hloc Ha Hb Hc Hd :=
  intros;
  repeat match goal with
    | H : <[_ := _]> _ !! _ = Some _ |- _ =>
        apply lookup_insert_Some in H as [[<- <-] | [_ H]]
    | H : delete _ _ !! _ = Some _ |- _ => apply lookup_delete_Some in H as [_ H]
    | H : _ ∈ _ :: _ |- _ => apply elem_of_cons in H as [-> | H]
    | H : _ ∈ [] |- _ => by apply elem_of_nil in H
    end;
  simpl;
  try match type of Hloc with
    | ∀ ch, ch ∈ [?a] → _ => pose proof (Hloc a ltac:(repeat constructor))
    | ∀ ch, ch ∈ [?a; ?b] → _ =>
        pose proof (Hloc a ltac:(repeat constructor));
        pose proof (Hloc b ltac:(repeat constructor))
    end;
  repeat match goal with
    | H : acquiredlocks _ !! _ = Some _ |- _ => apply Ha in H
    | H : attemtinglocks _ !! _ = Some _ |- _ => apply Hb in H
    | H : _ ∈ closes _ |- _ => apply Hc in H
    | H : _ ∈ (sent _).*1 |- _ => apply Hd in H
    end;
  lia.

Lemma gstep_chans (t : nat) (o : oracle) (g g' : goroutine) (s s' : Shared) :
  gstep t o g s = Some (g', s') →
  (∀ ch, ch ∈ chans_of g → ch < nextChan s) → chans_below s →
  nextChan s ≤ nextChan s' ∧ (∀ ch, ch ∈ chans_of g' → ch < nextChan s') ∧ chans_below s'.
Proof.
  intros H Hloc (Ha & Hb & Hc & Hd). unfold chans_below.
  step_cases H; simpl in *; (split; [lia|]); split_and!; chan_lt Hloc Ha Hb Hc Hd.
Qed.

Lemma chans_inv_step (ev : event) (st st' : State) :
  chans_inv st → step ev st = Some st' → chans_inv st'.
Proof.
  intros [Hloc Hbelow] Hstep. destruct ev as [t o | t].
  - apply step_EvStep in Hstep as (_ & g & g' & s' & Hg & Hs & ->).
    destruct (gstep_chans _ _ _ _ _ _ Hs (λ ch, Hloc t g ch Hg) Hbelow)
      as (Hle & Hloc' & Hbelow').
    split; [|done]. intros t2 g2 ch Hl Hch. simpl in *.
    destruct (decide (t = t2)) as [<- | Hne].
    + rewrite lookup_insert_eq in Hl. injection Hl as <-. auto.
    + rewrite lookup_insert_ne in Hl by done.
      specialize (Hloc t2 g2 ch Hl Hch). lia.
  - apply step_EvCancel in Hstep as (_ & key & val & ctx & pc & Hg & ->).
    split; [|done]. intros t2 g2 ch Hl Hch. simpl in *.
    destruct (decide (t = t2)) as [<- | Hne].
    + rewrite lookup_insert_eq in Hl. injection Hl as <-. eapply Hloc; eauto.
    + rewrite lookup_insert_ne in Hl by done. eauto.
Qed.

(** A step sends at most once, on the goroutine's own error channel, and
    the goroutine may not send again; a new error channel is fresh. *)
Lemma gstep_errchan (t : nat) (o : oracle) (g g' : goroutine) (s s' : Shared) :
  gstep t o g s = Some (g', s') →
  (sent s' = sent s ∨
   ∃ c e, errchan_of g = Some c ∧ may_send g = true ∧ may_send g' = false ∧
          sent s' = (c, e) :: sent s) ∧
  (errchan_of g' = errchan_of g ∨
   errchan_of g = None ∧ errchan_of g' = Some (nextChan s)) ∧
  (may_send g' = true → may_send g = true ∨ errchan_of g = None).
Proof.
  intros H. step_cases H; simpl; split_and!; eauto 10.
Qed.

Lemma errchan_inv_step (ev : event) (st st' : State) :
  chans_inv st → errchan_inv st → step ev st = Some st' → errchan_inv st'.
Proof.
  intros [Hloc (_ & _ & _ & Hsent)] (Hnd & Hfresh & Huniq) Hstep.
  destruct ev as [t o | t].
  - apply step_EvStep in Hstep as (_ & g & g' & s' & Hg & Hs & ->).
    destruct (gstep_errchan _ _ _ _ _ _ Hs) as (Hs1 & Hs2 & Hs3).
    assert (Hnew : ∀ c, errchan_of g' = Some c → errchan_of g = Some c ∨
                        (errchan_of g = None ∧ c = nextChan (shared st))).
    { intros c Hc. destruct Hs2 as [<- | [Hn Hc']]; [by left | right]. split; congruence. }
    assert (Hlt : ∀ t2 g2 c, pool st !! t2 = Some g2 → errchan_of g2 = Some c →
                             c < nextChan (shared st)).
    { intros t2 g2 c Hl Hc. eapply Hloc; [exact Hl | by apply errchan_in_chans]. }
    unfold errchan_inv. simpl. split_and!.
    + destruct Hs1 as [-> | (c & e & Hc & Hm & _ & ->)]; [done|].
      simpl. apply NoDup_cons. split; [|done]. eapply Hfresh; eauto.
    + intros t2 g2 c Hl Hc Hm.
      destruct (decide (t = t2)) as [<- | Hne].
      * rewrite lookup_insert_eq in Hl. injection Hl as <-.
        destruct Hs1 as [-> | (c0 & e & _ & _ & Hm' & _)]; [|congruence].
        destruct (Hnew c Hc) as [Hold | [Hnone ->]].
        -- destruct (Hs3 Hm) as [Hm0 | Hn]; [|congruence]. eapply Hfresh; eauto.
        -- intros Hin. apply Hsent in Hin. lia.
      * rewrite lookup_insert_ne in Hl by done.
        destruct Hs1 as [-> | (c0 & e & Hc0 & _ & _ & ->)]; [eapply Hfresh; eauto|].
        simpl. apply not_elem_of_cons. split; [|eapply Hfresh; eauto].
        intros ->. apply Hne. eapply Huniq; eauto.
    + intros t1 t2 g1 g2 c Hl1 Hl2 Hc1 Hc2.
      destruct (decide (t = t1)) as [<- | Hne1]; destruct (decide (t = t2)) as [<- | Hne2];
        [done | | |].
      * rewrite lookup_insert_eq in Hl1. injection Hl1 as <-.
        rewrite lookup_insert_ne in Hl2 by done.
        destruct (Hnew c Hc1) as [Hold | [_ ->]]; [eapply Huniq; eauto|].
        specialize (Hlt _ _ _ Hl2 Hc2). lia.
      * rewrite lookup_insert_eq in Hl2. injection Hl2 as <-.
        rewrite lookup_insert_ne in Hl1 by done.
        destruct (Hnew c Hc2) as [Hold | [_ ->]]; [eapply Huniq; eauto|].
        specialize (Hlt _ _ _ Hl1 Hc1). lia.
      * rewrite lookup_insert_ne in Hl1, Hl2 by done. eapply Huniq; eauto.
  - apply step_EvCancel in Hstep as (_ & key & val & ctx & pc & Hg & ->).
    unfold errchan_inv. simpl. split_and!; [done | |].
    + intros t2 g2 c Hl Hc Hm.
      destruct (decide (t = t2)) as [<- | Hne].
      * rewrite lookup_insert_eq in Hl. by injection Hl as <-.
      * rewrite lookup_insert_ne in Hl by done. eapply Hfresh; eauto.
    + intros t1 t2 g1 g2 c Hl1 Hl2 Hc1 Hc2.
      destruct (decide (t = t1)) as [<- | Hne1].
      { rewrite lookup_insert_eq in Hl1. by injection Hl1 as <-. }
      destruct (decide (t = t2)) as [<- | Hne2].
      { rewrite lookup_insert_eq in Hl2. by injection Hl2 as <-. }
      rewrite lookup_insert_ne in Hl1, Hl2 by done. eapply Huniq; eauto.
Qed.

(** ** The invariants hold in every reachable state *)

Lemma Inv_step (ev : event) (st st' : State) :
  Inv st → step ev st = Some st' → Inv st'.
Proof.
  intros (H1 & H2 & H3 & H4 & H5) Hstep.
  split_and!; eauto using mutex_inv_step, cleanup_inv_step, attempting_inv_step,
    chans_inv_step, errchan_inv_step.
Qed.

Lemma Inv_run (evs : list event) (st st' : State) :
  Inv st → run evs st = Some st' → Inv st'.
Proof. apply run_invariant. intros ev s1 s2. apply Inv_step. Qed.

Lemma at_entry_facts (g : goroutine) :
  at_entry g = true →
  stop_blocked g = true ∧ holds g = false ∧ chans_of g = [] ∧ errchan_of g = None ∧
  (∀ k, attempts k g = false) ∧
  (∀ key val ctx r, g ≠ GLock key val ctx (L_dmunlock r)).
Proof.
  destruct g as [? ? [] [] | ? [] | ? [] | []]; simpl; try discriminate;
    intros _; split_and!; try done; intros; by rewrite andb_false_r.
Qed.

Lemma Inv_initial (st : State) : initial st → Inv st.
Proof.
  intros [[cfg Hs] Hentry]. unfold Inv, mutex_inv, cleanup_inv, attempting_inv,
    chans_inv, chans_below, errchan_inv. rewrite Hs. simpl.
  split_and!.
  - intros t g Hl. destruct (at_entry_facts g (Hentry t g Hl)) as (? & Hh & _).
    split; [done|]. congruence.
  - intros t key val ctx r Hl.
    destruct (at_entry_facts _ (Hentry t _ Hl)) as (_ & _ & _ & _ & _ & Hne).
    by destruct (Hne key val ctx r).
  - intros k [l Hl]. by rewrite lookup_empty in Hl.
  - intros t g ch Hl Hch.
    destruct (at_entry_facts g (Hentry t g Hl)) as (_ & _ & Hc & _).
    rewrite Hc in Hch. by apply elem_of_nil in Hch.
  - intros k l Hl. by rewrite lookup_empty in Hl.
  - intros k l Hl. by rewrite lookup_empty in Hl.
  - intros ch Hch. by apply elem_of_nil in Hch.
  - intros ch Hch. by apply elem_of_nil in Hch.
  - apply NoDup_nil_2.
  - intros t g c Hl Hc. destruct (at_entry_facts g (Hentry t g Hl)) as (_ & _ & _ & He & _).
    congruence.
  - intros t1 t2 g1 g2 c Hl1 _ Hc.
    destruct (at_entry_facts g1 (Hentry t1 g1 Hl1)) as (_ & _ & _ & He & _). congruence.
Qed.

Lemma Inv_reachable (st : State) : reachable st → Inv st.
Proof.
  intros (st0 & evs & Hinit & Hrun). eapply Inv_run; [|exact Hrun]. by apply Inv_initial.
Qed.

(** ** The scenarios are runs of the machine *)

Lemma reachable_run (st0 st : State) (evs : list event) :
  initial st0 → run evs st0 = Some st → reachable st.
Proof. intros H0 Hrun. by exists st0, evs. Qed.

Lemma initial_pool (cfg : config) (p : gmap nat goroutine) :
  map_Forall (λ _ g, at_entry g = true) p → initial (mkState (new_locker cfg) p).
Proof. intros Hp. split; [by exists cfg | exact Hp]. Qed.

Lemma initial_lock_alone : initial lock_alone.
Proof. apply initial_pool. apply (bool_decide_unpack _). by vm_compute. Qed.

Lemma initial_lock_and_unlock : initial lock_and_unlock.
Proof. apply initial_pool. apply (bool_decide_unpack _). by vm_compute. Qed.

Lemma initial_lock_and_stop : initial lock_and_stop.
Proof. apply initial_pool. apply (bool_decide_unpack _). by vm_compute. Qed.

Lemma initial_lock_and_two_unlocks : initial lock_and_two_unlocks.
Proof. apply initial_pool. apply (bool_decide_unpack _). by vm_compute. Qed.

Lemma initial_keeplock_alone : initial keeplock_alone.
Proof. apply initial_pool. apply (bool_decide_unpack _). by vm_compute. Qed.

Lemma run_lock_alone : run lock_evs lock_alone = Some lock_returned.
Proof. vm_compute. reflexivity. Qed.

Lemma run_acquire : run acquire_evs lock_alone = Some lock_acquired.
Proof. vm_compute. reflexivity. Qed.

(** ** C1: the two maps *)

(** C1, as stated, fails: when the acquire has succeeded and [Lock] has
    released the mutex (line 161), the key is in both maps until the
    deferred function runs; any goroutine may take the mutex in between. *)
Lemma C1_key_in_both_maps :
  ~ (∀ st, reachable st → m (shared st) = None → disjoint_registry (shared st)).
Proof.
  intros H.
  apply (H lock_acquired (reachable_run _ _ _ initial_lock_alone run_acquire) eq_refl "k").
  split; by eexists.
Qed.

(** C1, amended: in every reachable state a key is in [attemtinglocks] only
    while a [Lock] call on that key is pending (begun, and its deferred
    [delete] not yet run); so whenever no [Lock] call on the key is
    pending, the key is in at most one of the two maps. *)
Theorem C1_attempting_only_while_pending :
  (∀ st k, reachable st → is_Some (attemtinglocks (shared st) !! k) →
     ∃ t val ctx pc, pool st !! t = Some (GLock k val ctx pc) ∧ lock_pending pc = true) ∧
  (∀ st k, reachable st →
     (∀ t val ctx pc, pool st !! t = Some (GLock k val ctx pc) → lock_pending pc = false) →
     attemtinglocks (shared st) !! k = None ∧
     ¬ (is_Some (attemtinglocks (shared st) !! k) ∧ is_Some (acquiredlocks (shared st) !! k))).
Proof.
  assert (Hpend : ∀ st k, reachable st → is_Some (attemtinglocks (shared st) !! k) →
     ∃ t val ctx pc, pool st !! t = Some (GLock k val ctx pc) ∧ lock_pending pc = true).
  { intros st k Hr Hk. apply Inv_reachable in Hr as (_ & _ & Hatt & _).
    destruct (Hatt k Hk) as (t & g & Hl & Ha).
    destruct g as [key val ctx pc | | |]; simpl in Ha; try discriminate.
    apply andb_true_iff in Ha as [Hkey Hp]. apply bool_decide_eq_true in Hkey as ->.
    by exists t, val, ctx, pc. }
  split; [exact Hpend|].
  intros st k Hr Hnone.
  assert (Hk : attemtinglocks (shared st) !! k = None).
  { destruct (attemtinglocks (shared st) !! k) as [l|] eqn:E; [|done].
    destruct (Hpend st k Hr) as (t & val & ctx & pc & Hl & Hp); [by rewrite E|].
    rewrite (Hnone _ _ _ _ Hl) in Hp. discriminate. }
  split; [done|]. rewrite Hk. intros [[? ?] _]. discriminate.
Qed.

Lemma C1_attempting_only_while_pending_witness :
  attemtinglocks (shared lock_returned) !! "k" = None ∧
  ¬ (is_Some (attemtinglocks (shared lock_returned) !! "k") ∧
     is_Some (acquiredlocks (shared lock_returned) !! "k")).
Proof.
  apply (proj2 C1_attempting_only_while_pending lock_returned "k").
  - exact (reachable_run _ _ _ initial_lock_alone run_lock_alone).
  - intros t val ctx pc Hl. simpl in Hl.
    apply lookup_singleton_Some in Hl as [_ Hg]. by injection Hg as <- <- <-.
Defined.

(** ** C5: how [Lock] ends *)

Lemma run_cancel : run cancel_evs lock_and_unlock = Some lock_cancelled_twice.
Proof. vm_compute. reflexivity. Qed.

(** C5, as stated, fails: with the context cancelled and the channel
    closed, both cases of the [select] are ready, and [Lock] may return
    [ErrCanceled] although the context is cancelled. *)
Lemma C5_cancelled_context_may_return_ErrCanceled :
  ~ (∀ st t o st' key val ch,
       reachable st →
       pool st !! t = Some (GLock key val true (L_select ch)) →
       step (EvStep t o) st = Some st' →
       pool st' !! t = Some (GLock key val true (L_defer (false, Some ErrContext)))).
Proof.
  intros H.
  destruct (step (EvStep 0 other_case) lock_cancelled_twice) as [st'|] eqn:E;
    [|by vm_compute in E].
  specialize (H lock_cancelled_twice 0 other_case st' "k" "v" 0
                (reachable_run _ _ _ initial_lock_and_unlock run_cancel) eq_refl E).
  vm_compute in E. injection E as <-. vm_compute in H. discriminate.
Qed.

(** The deferred function: from the point where [Lock] has its return
    value, three steps delete the key and return that value. *)
Lemma Lock_deferred (t : nat) (key val : string) (ctx : bool) (r : bool * option error)
    (o1 o2 o3 : oracle) (s : Shared) :
  m s = None → panicked s = false →
  grun t [o1; o2; o3] (GLock key val ctx (L_defer r)) s =
    Some (GLock key val ctx (L_done r),
          set_attemtinglocks (delete key (attemtinglocks s)) s).
Proof.
  intros Hm Hp. destruct s as [cfg acq att mu nc cl se ca pa]. simpl in *. subst.
  reflexivity.
Qed.

(** A [Lock] call returns only out of its deferred function, and the key
    is then absent from [attemtinglocks]. *)
Lemma Lock_returns_after_delete (st st' : State) (t : nat) (o : oracle)
    (key val : string) (ctx : bool) (r : bool * option error) :
  Inv st → step (EvStep t o) st = Some st' →
  pool st' !! t = Some (GLock key val ctx (L_done r)) →
  pool st !! t = Some (GLock key val ctx (L_dmunlock r)) ∧
  attemtinglocks (shared st') !! key = None.
Proof.
  intros (_ & Hclean & _) Hstep Hl.
  apply step_EvStep in Hstep as (_ & g & g' & s' & Hg & Hs & ->). simpl in *.
  rewrite lookup_insert_eq in Hl. injection Hl as ->.
  assert (g = GLock key val ctx (L_dmunlock r) ∧
          attemtinglocks s' = attemtinglocks (shared st)) as [-> Hatt].
  { clear Hg. step_cases Hs; done. }
  split; [done|]. rewrite Hatt. eauto.
Qed.


(** The value [Lock] has when its deferred function starts is the value it
    returns, and a won acquire leads nowhere but to (true, nil). *)
Lemma Lock_step_result (t : nat) (key val : string) (ctx : bool) (o : oracle)
    (pc pc' : lock_pc) (s s' : Shared) (r : bool * option error) :
  Lock_step t key val ctx o pc s = Some (pc', s') →
  lock_result pc = Some r → lock_result pc' = Some r.
Proof.
  intros H Hr. destruct pc; simpl in *; try discriminate; by simplify_option_eq.
Qed.


(** What the steps of a [Lock] call keep, every run keeps: the other
    goroutines do not touch its control point, and a cancellation changes
    only its context. *)
Lemma Lock_bound_run (h : lock_pc → option (bool * option error)) :
  (∀ t key val ctx o pc pc' s s' r,
     Lock_step t key val ctx o pc s = Some (pc', s') → h pc = Some r → h pc' = Some r) →
  ∀ evs st st' t key val ctx pc r,
    pool st !! t = Some (GLock key val ctx pc) → h pc = Some r →
    run evs st = Some st' →
    ∃ ctx' pc', pool st' !! t = Some (GLock key val ctx' pc') ∧ h pc' = Some r.
Proof.
  intros Hh evs. induction evs as [|ev evs IH];
    intros st st' t key val ctx pc r Hl Hr Hrun; simpl in Hrun.
  - injection Hrun as <-. eauto.
  - destruct (step ev st) as [st1|] eqn:E; [|discriminate]. simpl in Hrun.
    assert (∃ ctx1 pc1, pool st1 !! t = Some (GLock key val ctx1 pc1) ∧ h pc1 = Some r)
      as (ctx1 & pc1 & Hl1 & Hr1).
    { destruct ev as [t2 o | t2].
      - apply step_EvStep in E as (_ & g & g' & s' & Hg & Hs & ->). simpl.
        destruct (decide (t2 = t)) as [-> | Hne].
        + rewrite lookup_insert_eq. rewrite Hl in Hg. injection Hg as <-. simpl in Hs.
          destruct (Lock_step t key val ctx o pc (shared st)) as [[pc1 s1]|] eqn:EL;
            [|discriminate].
          simpl in Hs. injection Hs as <- <-. eauto.
        + rewrite lookup_insert_ne by done. eauto.
      - apply step_EvCancel in E as (_ & key2 & val2 & ctx2 & pc2 & Hg & ->). simpl.
        destruct (decide (t2 = t)) as [-> | Hne].
        + rewrite lookup_insert_eq. rewrite Hl in Hg. injection Hg as <- <- <- <-. eauto.
        + rewrite lookup_insert_ne by done. eauto. }
    eapply IH; eauto.
Qed.

(** C5, amended: the [select] of [Lock] is a step that is always enabled
    and looks at nothing but the context and the call's channel, whatever
    the state of the mutex: it takes the return (false, ctx.Err()) when
    only the context is cancelled, (false, ErrCanceled) when only the
    channel is closed, either of the two when both hold, and goes on to
    create a session when neither does. In every run, that value is the
    only one the call can return afterwards. It returns it in three steps
    once the mutex is free for its deferred function. And every return of
    [Lock] comes out of the deferred function, with the key absent from
    [attemtinglocks]. *)
Theorem C5_Lock_cancellation :
  (∀ st t o key val ctx ch,
     pool st !! t = Some (GLock key val ctx (L_select ch)) →
     panicked (shared st) = false →
     ∃ pc',
       step (EvStep t o) st =
         Some (mkState (shared st) (<[t := GLock key val ctx pc']> (pool st))) ∧
       (ctx = true → chan_closed ch (shared st) = false →
        pc' = L_defer (false, Some ErrContext)) ∧
       (ctx = false → chan_closed ch (shared st) = true →
        pc' = L_defer (false, Some ErrCanceled)) ∧
       (ctx = true → chan_closed ch (shared st) = true →
        pc' = L_defer (false, Some ErrContext) ∨ pc' = L_defer (false, Some ErrCanceled)) ∧
       (ctx = false → chan_closed ch (shared st) = false → pc' = L_create ch)) ∧
  (∀ evs st st' t key val ctx r,
     pool st !! t = Some (GLock key val ctx (L_defer r)) →
     run evs st = Some st' →
     ∃ ctx' pc', pool st' !! t = Some (GLock key val ctx' pc') ∧ lock_result pc' = Some r) ∧
  (∀ st t o key val ctx r,
     pool st !! t = Some (GLock key val ctx (L_defer r)) →
     m (shared st) = None → panicked (shared st) = false →
     ∃ st', run (EvStep t <$> [o; o; o]) st = Some st' ∧
       pool st' !! t = Some (GLock key val ctx (L_done r)) ∧
       attemtinglocks (shared st') !! key = None) ∧
  (∀ st st' t o key val ctx r,
     reachable st → step (EvStep t o) st = Some st' →
     pool st' !! t = Some (GLock key val ctx (L_done r)) →
     pool st !! t = Some (GLock key val ctx (L_dmunlock r)) ∧
     attemtinglocks (shared st') !! key = None).
Proof.
  split_and!.
  - intros st t o key val ctx ch Hl Hp.
    unfold step. rewrite Hp, Hl. simpl.
    destruct ctx, (chan_closed ch (shared st)); simpl;
      eexists; (split; [reflexivity|]); split_and!; try done.
    intros _ _. destruct (o_pick o); auto.
  - intros evs st st' t key val ctx r Hl Hrun.
    eapply (Lock_bound_run lock_result); [apply Lock_step_result | exact Hl | done | exact Hrun].
  - intros st t o key val ctx r Hl Hm Hp.
    pose proof (Lock_deferred t key val ctx r o o o _ Hm Hp) as Hg.
    eexists. split; [exact (grun_run _ _ _ _ _ _ Hl Hg)|]. simpl.
    by rewrite lookup_insert_eq, lookup_delete_eq.
  - intros st st' t o key val ctx r Hr. apply Lock_returns_after_delete.
    by apply Inv_reachable.
Qed.

Lemma C5_Lock_cancellation_witness :
  (∃ pc',
     step (EvStep 0 other_case) lock_cancelled_twice =
       Some (mkState (shared lock_cancelled_twice)
               (<[0 := GLock "k" "v" true pc']> (pool lock_cancelled_twice))) ∧
     (true = true → chan_closed 0 (shared lock_cancelled_twice) = false →
      pc' = L_defer (false, Some ErrContext)) ∧
     (true = false → chan_closed 0 (shared lock_cancelled_twice) = true →
      pc' = L_defer (false, Some ErrCanceled)) ∧
     (true = true → chan_closed 0 (shared lock_cancelled_twice) = true →
      pc' = L_defer (false, Some ErrContext) ∨ pc' = L_defer (false, Some ErrCanceled)) ∧
     (true = false → chan_closed 0 (shared lock_cancelled_twice) = false →
      pc' = L_create 0)) ∧
  (∃ st', run (EvStep 0 <$> [ok ""; ok ""; ok ""]) lock_acquired = Some st' ∧
     pool st' !! 0 = Some (GLock "k" "v" false (L_done (true, None))) ∧
     attemtinglocks (shared st') !! "k" = None).
Proof.
  split.
  - apply (proj1 C5_Lock_cancellation lock_cancelled_twice 0 other_case "k" "v" true 0);
      reflexivity.
  - apply (proj1 (proj2 (proj2 C5_Lock_cancellation)) lock_acquired 0 (ok "") "k" "v" false
             (true, None)); reflexivity.
Defined.

(** ** C9: [KeepLock] on a key that is not held *)

(** The synchronous part: lock, look the key up, unlock, make the error
    channel, start the goroutine and return both channels. *)
Lemma KeepLock_unknown_returns (t : nat) (key : string) (o1 o2 o3 : oracle) (s : Shared) :
  m s = None → panicked s = false → acquiredlocks s !! key = None →
  grun t [o1; o2; o3] (GKeepLock key K_start) s =
    Some (GKeepLock key (K_go "" (nextChan s) (S (nextChan s))),
          set_nextChan (S (S (nextChan s))) s).
Proof.
  intros Hm Hp Hk. destruct s as [cfg acq att mu nc cl se ca pa]. simpl in *. subst.
  simpl. rewrite Hk. reflexivity.
Qed.

(** The goroutine: send "unknown key", then close the done channel. *)
Lemma KeepLock_unknown_goroutine (t : nat) (key : string) (o1 o2 o3 : oracle)
    (done errc : nat) (s : Shared) :
  panicked s = false → done ∉ closes s → o_recv o2 = true →
  grun t [o1; o2; o3] (GKeepLock key (K_go "" done errc)) s =
    Some (GKeepLock key (K_end done errc),
          set_closes (done :: closes s) (set_sent ((errc, ErrUnknownKey) :: sent s) s)).
Proof.
  intros Hp Hd Hrecv. destruct s as [cfg acq att mu nc cl se ca pa]. simpl in *. subst.
  rewrite Hrecv. simpl. unfold close_chan. simpl.
  rewrite bool_decide_eq_false_2 by done. reflexivity.
Qed.

(** While nobody receives from the error channel, the call does not get
    past its send: nothing is delivered and nothing is closed. *)
Lemma waits_for_receiver_step (t : nat) (key : string) (ev : event) (st st' : State) :
  no_receiver ev → waits_for_receiver t key st → step ev st = Some st' →
  waits_for_receiver t key st'.
Proof.
  intros Hev (Hacq & Hcl & Hse & pc & Hpool & Hpc) Hstep. destruct ev as [t2 o | t2].
  - apply step_EvStep in Hstep as (_ & g & g' & s' & Hg & Hs & ->). simpl in *.
    rewrite Hpool in Hg. apply lookup_singleton_Some in Hg as [<- <-].
    rewrite Hpool, insert_singleton_eq. destruct (shared st) as [cfg acq att mu nc cl se ca pa].
    simpl in *. subst.
    destruct pc; simpl in *; try discriminate; unfold_ops; simpl in *;
      repeat (first [ discriminate
                    | progress simplify_option_eq
                    | progress case_match ]);
      repeat split; eauto.
  - apply step_EvCancel in Hstep as (_ & key2 & val2 & ctx2 & pc2 & Hg & _).
    rewrite Hpool in Hg. apply lookup_singleton_Some in Hg as [_ Hg]. discriminate.
Qed.

Lemma waits_for_receiver_run (t : nat) (key : string) (evs : list event) :
  ∀ st st', Forall no_receiver evs → waits_for_receiver t key st →
    run evs st = Some st' → waits_for_receiver t key st'.
Proof.
  induction evs as [|ev evs IH]; intros st st' Hev Hw Hrun; simpl in Hrun.
  - by injection Hrun as <-.
  - apply Forall_cons in Hev as [Hev Hevs].
    destruct (step ev st) as [st1|] eqn:E; [|discriminate]. simpl in Hrun.
    eapply IH; [exact Hevs | | exact Hrun]. eapply waits_for_receiver_step; eauto.
Qed.

(** C9, as stated, fails: the error channel is unbuffered, and while the
    caller does not receive from it the goroutine waits at its send. From a
    [KeepLock] call on a key that is not held, no run in which nobody
    receives ends with the goroutine finished and the done channel
    closed. *)
Lemma C9_no_receiver_no_close :
  ~ (∀ st t key,
       reachable st → pool st !! t = Some (GKeepLock key K_start) →
       m (shared st) = None → panicked (shared st) = false →
       acquiredlocks (shared st) !! key = None →
       ∃ evs st' done errc,
         Forall no_receiver evs ∧ run evs st = Some st' ∧
         pool st' !! t = Some (GKeepLock key (K_end done errc)) ∧
         done ∈ closes (shared st')).
Proof.
  intros H.
  destruct (H keeplock_alone 0 "k"
              (reachable_run keeplock_alone _ [] initial_keeplock_alone eq_refl)
              eq_refl eq_refl eq_refl eq_refl)
    as (evs & st' & done & errc & Hev & Hrun & _ & Hin).
  assert (Hw : waits_for_receiver 0 "k" keeplock_alone).
  { repeat split. by exists K_start. }
  destruct (waits_for_receiver_run 0 "k" evs _ _ Hev Hw Hrun) as (_ & Hcl & _).
  rewrite Hcl in Hin. by apply elem_of_nil in Hin.
Qed.

(** C9, amended: for a key that is not held, [KeepLock] returns a done
    channel and an error channel that are both new; once the caller
    receives from the error channel, the goroutine has delivered the one
    error "unknown key" on it and closes the done channel, whatever the
    state of the mutex; while nobody receives, the goroutine waits at the
    send, with the done channel open; and no error channel ever carries
    more than one value. *)
Theorem C9_KeepLock_unknown_key :
  (∀ st t o key,
     reachable st → pool st !! t = Some (GKeepLock key K_start) →
     m (shared st) = None → panicked (shared st) = false →
     acquiredlocks (shared st) !! key = None → o_recv o = true →
     ∃ done errc st1 st2,
       run (EvStep t <$> [o; o; o]) st = Some st1 ∧
       pool st1 !! t = Some (GKeepLock key (K_go "" done errc)) ∧
       (done ∉ closes (shared st)) ∧
       (∀ k l, acquiredlocks (shared st) !! k = Some l → doneChan l ≠ done) ∧
       (∀ k l, attemtinglocks (shared st) !! k = Some l → doneChan l ≠ done) ∧
       (∀ t' g, pool st !! t' = Some g → (done ∉ chans_of g) ∧ (errc ∉ chans_of g)) ∧
       (errc ∉ (sent (shared st)).*1) ∧
       run (EvStep t <$> [o; o; o]) st1 = Some st2 ∧
       pool st2 !! t = Some (GKeepLock key (K_end done errc)) ∧
       sent (shared st2) = (errc, ErrUnknownKey) :: sent (shared st) ∧
       closes (shared st2) = done :: closes (shared st) ∧
       panicked (shared st2) = false) ∧
  (∀ st t o key done errc,
     pool st !! t = Some (GKeepLock key (K_go "" done errc)) →
     panicked (shared st) = false → done ∉ closes (shared st) → o_recv o = true →
     ∃ st2, run (EvStep t <$> [o; o; o]) st = Some st2 ∧
       pool st2 !! t = Some (GKeepLock key (K_end done errc)) ∧
       sent (shared st2) = (errc, ErrUnknownKey) :: sent (shared st) ∧
       closes (shared st2) = done :: closes (shared st) ∧
       m (shared st2) = m (shared st) ∧ panicked (shared st2) = false) ∧
  (∀ st t o key done errc,
     pool st !! t = Some (GKeepLock key (K_go "" done errc)) →
     panicked (shared st) = false → o_recv o = false →
     ∃ st1, step (EvStep t o) st = Some st1 ∧
       pool st1 !! t = Some (GKeepLock key (K_send_unknown done errc)) ∧
       shared st1 = shared st ∧
       step (EvStep t o) st1 = None) ∧
  (∀ st, reachable st → NoDup (sent (shared st)).*1).
Proof.
  split_and!.
  - intros st t o key Hr Hl Hm Hp Hk Hrecv.
    apply Inv_reachable in Hr as (_ & _ & _ & [Hloc (Hacq & Hatt & Hcl & Hse)] & _).
    set (n := nextChan (shared st)).
    assert (Hfresh : n ∉ closes (shared st)).
    { intros Hin. apply Hcl in Hin. lia. }
    pose proof (KeepLock_unknown_returns t key o o o _ Hm Hp Hk) as H1.
    pose proof (grun_run _ _ _ _ _ _ Hl H1) as R1.
    set (st1 := mkState (set_nextChan (S (S n)) (shared st))
                  (<[t := GKeepLock key (K_go "" n (S n))]> (pool st))) in *.
    assert (Hl1 : pool st1 !! t = Some (GKeepLock key (K_go "" n (S n))))
      by apply lookup_insert_eq.
    pose proof (KeepLock_unknown_goroutine t key o o o n (S n) (shared st1) Hp Hfresh Hrecv) as H2.
    pose proof (grun_run _ _ _ _ _ _ Hl1 H2) as R2.
    exists n, (S n), st1. eexists. split_and!; [exact R1 | exact Hl1 | exact Hfresh | ..].
    + intros k l Hkl Heq. apply Hacq in Hkl. lia.
    + intros k l Hkl Heq. apply Hatt in Hkl. lia.
    + intros t' g Hg. split; intros Hin; apply (Hloc t' g _ Hg) in Hin; lia.
    + intros Hin. apply Hse in Hin. lia.
    + exact R2.
    + simpl. apply lookup_insert_eq.
    + reflexivity.
    + reflexivity.
    + exact Hp.
  - intros st t o key done errc Hl Hp Hd Hrecv.
    pose proof (KeepLock_unknown_goroutine t key o o o done errc (shared st) Hp Hd Hrecv) as H2.
    eexists. split; [exact (grun_run _ _ _ _ _ _ Hl H2)|]. simpl.
    rewrite lookup_insert_eq. by split_and!.
  - intros st t o key done errc Hl Hp Hrecv.
    eexists. split; [unfold step; rewrite Hp, Hl; simpl; reflexivity|]. simpl.
    rewrite lookup_insert_eq. split_and!; try done.
    unfold step. simpl. rewrite Hp, lookup_insert_eq. simpl. by rewrite Hrecv.
  - intros st Hr. by apply Inv_reachable in Hr as (_ & _ & _ & _ & Hnd & _).
Qed.

Lemma C9_KeepLock_unknown_key_witness :
  ∃ done errc st1 st2,
    run (EvStep 0 <$> replicate 3 (ok "")) keeplock_alone = Some st1 ∧
    pool st1 !! 0 = Some (GKeepLock "k" (K_go "" done errc)) ∧
    (done ∉ closes (shared keeplock_alone)) ∧
    (∀ k l, acquiredlocks (shared keeplock_alone) !! k = Some l → doneChan l ≠ done) ∧
    (∀ k l, attemtinglocks (shared keeplock_alone) !! k = Some l → doneChan l ≠ done) ∧
    (∀ t' g, pool keeplock_alone !! t' = Some g → (done ∉ chans_of g) ∧ (errc ∉ chans_of g)) ∧
    (errc ∉ (sent (shared keeplock_alone)).*1) ∧
    run (EvStep 0 <$> replicate 3 (ok "")) st1 = Some st2 ∧
    pool st2 !! 0 = Some (GKeepLock "k" (K_end done errc)) ∧
    sent (shared st2) = (errc, ErrUnknownKey) :: sent (shared keeplock_alone) ∧
    closes (shared st2) = done :: closes (shared keeplock_alone) ∧
    panicked (shared st2) = false.
Proof.
  apply (proj1 C9_KeepLock_unknown_key keeplock_alone 0 (ok "") "k");
    [ exact (reachable_run keeplock_alone _ [] initial_keeplock_alone eq_refl)
    | reflexivity | reflexivity | reflexivity | reflexivity | reflexivity ].
Defined.

(** ** C3, C4, C6: [Unlock] *)

Lemma run_contend : run contend_evs lock_and_unlock = Some lock_contending.
Proof. vm_compute. reflexivity. Qed.

Lemma run_held_two_unlocks : run lock_evs lock_and_two_unlocks = Some held_two_unlocks.
Proof. vm_compute. reflexivity. Qed.

Lemma run_held_stop : run lock_evs lock_and_stop = Some held_stop.
Proof. vm_compute. reflexivity. Qed.

(** [Unlock] of a key under attempt, the session destroyed without error:
    six steps, and the maps are as they were. *)
Lemma Unlock_attempting_grun (t : nat) (key : string) (l : locks)
    (o1 o2 o3 o4 o5 o6 : oracle) (s : Shared) :
  m s = None → panicked s = false →
  acquiredlocks s !! key = None → attemtinglocks s !! key = Some l →
  doneChan l ∉ closes s → o_err o4 = None →
  grun t [o1; o2; o3; o4; o5; o6] (GUnlock key U_start) s =
    Some (GUnlock key (U_done None),
          set_calls (SessionDestroy (sessionID l) :: calls s)
            (set_closes (doneChan l :: closes s) s)).
Proof.
  intros Hm Hp Hacq Hatt Hcl Ho. destruct s as [cfg acq att mu nc cl se ca pa].
  simpl in *. subst. simpl. rewrite Hacq, Hatt. simpl.
  unfold close_chan. simpl. rewrite bool_decide_eq_false_2 by done. simpl.
  rewrite Ho. simpl. unfold set_acquiredlocks, set_calls, set_closes. simpl.
  by rewrite delete_id.
Qed.

(** [Unlock] of a held key when [KV().Delete] fails: five steps, the
    channel closed, no session destroyed, the maps as they were. *)
Lemma Unlock_held_delete_fails_grun (t : nat) (key e : string) (l : locks)
    (o1 o2 o3 o4 o5 : oracle) (s : Shared) :
  m s = None → panicked s = false → acquiredlocks s !! key = Some l →
  doneChan l ∉ closes s → o_err o4 = Some e →
  grun t [o1; o2; o3; o4; o5] (GUnlock key U_start) s =
    Some (GUnlock key (U_done (Some (ErrBackend e))),
          set_calls (KVDelete key :: calls s) (set_closes (doneChan l :: closes s) s)).
Proof.
  intros Hm Hp Hacq Hcl Ho. destruct s as [cfg acq att mu nc cl se ca pa].
  simpl in *. subst. simpl. rewrite Hacq. simpl.
  unfold close_chan. simpl. rewrite bool_decide_eq_false_2 by done. simpl.
  rewrite Ho. reflexivity.
Qed.

(** The same when the delete succeeds and [Session().Destroy] fails. *)
Lemma Unlock_held_destroy_fails_grun (t : nat) (key e : string) (l : locks)
    (o1 o2 o3 o4 o5 o6 : oracle) (s : Shared) :
  m s = None → panicked s = false → acquiredlocks s !! key = Some l →
  doneChan l ∉ closes s → o_err o4 = None → o_err o5 = Some e →
  grun t [o1; o2; o3; o4; o5; o6] (GUnlock key U_start) s =
    Some (GUnlock key (U_done (Some (ErrBackend e))),
          set_calls (SessionDestroy (sessionID l) :: KVDelete key :: calls s)
            (set_closes (doneChan l :: closes s) s)).
Proof.
  intros Hm Hp Hacq Hcl Ho4 Ho5. destruct s as [cfg acq att mu nc cl se ca pa].
  simpl in *. subst. simpl. rewrite Hacq. simpl.
  unfold close_chan. simpl. rewrite bool_decide_eq_false_2 by done. simpl.
  rewrite Ho4. simpl. rewrite Ho5. reflexivity.
Qed.

(** Both calls succeed: seven steps, and the key has left [acquiredlocks]. *)
Lemma Unlock_held_grun (t : nat) (key : string) (l : locks)
    (o1 o2 o3 o4 o5 o6 o7 : oracle) (s : Shared) :
  m s = None → panicked s = false → acquiredlocks s !! key = Some l →
  doneChan l ∉ closes s → o_err o4 = None → o_err o5 = None →
  grun t [o1; o2; o3; o4; o5; o6; o7] (GUnlock key U_start) s =
    Some (GUnlock key (U_done None),
          set_acquiredlocks (delete key (acquiredlocks s))
            (set_calls (SessionDestroy (sessionID l) :: KVDelete key :: calls s)
               (set_closes (doneChan l :: closes s) s))).
Proof.
  intros Hm Hp Hacq Hcl Ho4 Ho5. destruct s as [cfg acq att mu nc cl se ca pa].
  simpl in *. subst. simpl. rewrite Hacq. simpl.
  unfold close_chan. simpl. rewrite bool_decide_eq_false_2 by done. simpl.
  rewrite Ho4. simpl. rewrite Ho5. reflexivity.
Qed.

(** A second [Unlock] of a held key whose channel is already closed:
    the third step closes it again and panics. *)
Lemma Unlock_held_closed_grun (t : nat) (key : string) (l : locks)
    (o1 o2 o3 : oracle) (s : Shared) :
  m s = None → panicked s = false → acquiredlocks s !! key = Some l →
  doneChan l ∈ closes s →
  grun t [o1; o2; o3] (GUnlock key U_start) s =
    Some (GUnlock key (U_hdelete l),
          set_panicked true (set_closes (doneChan l :: closes s) (set_m (Some t) s))).
Proof.
  intros Hm Hp Hacq Hcl. destruct s as [cfg acq att mu nc cl se ca pa].
  simpl in *. subst. simpl. rewrite Hacq. simpl.
  unfold close_chan. simpl. rewrite bool_decide_eq_true_2 by done. reflexivity.
Qed.

(** C3: what the code does at a key under attempt. [Unlock] closes the
    entry's channel, destroys its session and returns nil, and the entry is
    still in [attemtinglocks] afterwards: line 222 deletes the key from
    [acquiredlocks], where it is not. *)
Theorem C3_Unlock_attempting_leaves_entry (st : State) (t : nat) (key : string)
    (l : locks) (o : oracle) :
  pool st !! t = Some (GUnlock key U_start) →
  m (shared st) = None → panicked (shared st) = false →
  acquiredlocks (shared st) !! key = None →
  attemtinglocks (shared st) !! key = Some l →
  doneChan l ∉ closes (shared st) → o_err o = None →
  ∃ st', run (EvStep t <$> replicate 6 o) st = Some st' ∧
    pool st' !! t = Some (GUnlock key (U_done None)) ∧
    closes (shared st') = doneChan l :: closes (shared st) ∧
    calls (shared st') = SessionDestroy (sessionID l) :: calls (shared st) ∧
    attemtinglocks (shared st') !! key = Some l ∧
    attemtinglocks (shared st') = attemtinglocks (shared st) ∧
    acquiredlocks (shared st') = acquiredlocks (shared st).
Proof.
  intros Hl Hm Hp Hacq Hatt Hcl Ho.
  pose proof (Unlock_attempting_grun t key l o o o o o o _ Hm Hp Hacq Hatt Hcl Ho) as Hg.
  eexists. split; [exact (grun_run _ _ _ _ _ _ Hl Hg)|]. simpl.
  rewrite lookup_insert_eq. by split_and!.
Qed.

Lemma C3_Unlock_attempting_leaves_entry_witness :
  ∃ st', run (EvStep 1 <$> replicate 6 (ok "")) lock_contending = Some st' ∧
    pool st' !! 1 = Some (GUnlock "k" (U_done None)) ∧
    closes (shared st') = [0] ∧
    calls (shared st') = SessionDestroy "s1" :: calls (shared lock_contending) ∧
    attemtinglocks (shared st') !! "k" = Some (mkLocks "s1" 0) ∧
    attemtinglocks (shared st') = attemtinglocks (shared lock_contending) ∧
    acquiredlocks (shared st') = acquiredlocks (shared lock_contending).
Proof.
  apply (C3_Unlock_attempting_leaves_entry lock_contending 1 "k" (mkLocks "s1" 0) (ok ""));
    try reflexivity.
  apply not_elem_of_nil.
Defined.

(** C4: what the code does at a held key. [Unlock] closes the channel and
    calls [KV().Delete] then [Session().Destroy]; when both succeed the
    entry leaves [acquiredlocks]; when the delete fails it returns that
    error without destroying the session, when the destroy fails it returns
    that error, and in both cases the entry stays in [acquiredlocks]. *)
Theorem C4_Unlock_held_error_keeps_entry (st : State) (t : nat) (key e : string)
    (l : locks) (o oe : oracle) :
  pool st !! t = Some (GUnlock key U_start) →
  m (shared st) = None → panicked (shared st) = false →
  acquiredlocks (shared st) !! key = Some l →
  doneChan l ∉ closes (shared st) → o_err o = None → o_err oe = Some e →
  (∃ st', run (EvStep t <$> replicate 7 o) st = Some st' ∧
     pool st' !! t = Some (GUnlock key (U_done None)) ∧
     closes (shared st') = doneChan l :: closes (shared st) ∧
     calls (shared st') = SessionDestroy (sessionID l) :: KVDelete key :: calls (shared st) ∧
     acquiredlocks (shared st') !! key = None) ∧
  (∃ st', run (EvStep t <$> [o; o; o; oe; o]) st = Some st' ∧
     pool st' !! t = Some (GUnlock key (U_done (Some (ErrBackend e)))) ∧
     closes (shared st') = doneChan l :: closes (shared st) ∧
     calls (shared st') = KVDelete key :: calls (shared st) ∧
     acquiredlocks (shared st') !! key = Some l) ∧
  (∃ st', run (EvStep t <$> [o; o; o; o; oe; o]) st = Some st' ∧
     pool st' !! t = Some (GUnlock key (U_done (Some (ErrBackend e)))) ∧
     closes (shared st') = doneChan l :: closes (shared st) ∧
     calls (shared st') = SessionDestroy (sessionID l) :: KVDelete key :: calls (shared st) ∧
     acquiredlocks (shared st') !! key = Some l).
Proof.
  intros Hl Hm Hp Hacq Hcl Ho Hoe. split_and!.
  - pose proof (Unlock_held_grun t key l o o o o o o o _ Hm Hp Hacq Hcl Ho Ho) as Hg.
    eexists. split; [exact (grun_run _ _ _ _ _ _ Hl Hg)|]. simpl.
    rewrite lookup_insert_eq, lookup_delete_eq. by split_and!.
  - pose proof (Unlock_held_delete_fails_grun t key e l o o o oe o _ Hm Hp Hacq Hcl Hoe) as Hg.
    eexists. split; [exact (grun_run _ _ _ _ _ _ Hl Hg)|]. simpl.
    rewrite lookup_insert_eq. by split_and!.
  - pose proof (Unlock_held_destroy_fails_grun t key e l o o o o oe o _ Hm Hp Hacq Hcl Ho Hoe)
      as Hg.
    eexists. split; [exact (grun_run _ _ _ _ _ _ Hl Hg)|]. simpl.
    rewrite lookup_insert_eq. by split_and!.
Qed.

Lemma C4_Unlock_held_error_keeps_entry_witness :
  let st := held_two_unlocks in
  let l := mkLocks "s1" 0 in
  let o := ok "" in
  let oe := fails "unreachable" in
  (∃ st', run (EvStep 1 <$> replicate 7 o) st = Some st' ∧
     pool st' !! 1 = Some (GUnlock "k" (U_done None)) ∧
     closes (shared st') = doneChan l :: closes (shared st) ∧
     calls (shared st') = SessionDestroy (sessionID l) :: KVDelete "k" :: calls (shared st) ∧
     acquiredlocks (shared st') !! "k" = None) ∧
  (∃ st', run (EvStep 1 <$> [o; o; o; oe; o]) st = Some st' ∧
     pool st' !! 1 = Some (GUnlock "k" (U_done (Some (ErrBackend "unreachable")))) ∧
     closes (shared st') = doneChan l :: closes (shared st) ∧
     calls (shared st') = KVDelete "k" :: calls (shared st) ∧
     acquiredlocks (shared st') !! "k" = Some l) ∧
  (∃ st', run (EvStep 1 <$> [o; o; o; o; oe; o]) st = Some st' ∧
     pool st' !! 1 = Some (GUnlock "k" (U_done (Some (ErrBackend "unreachable")))) ∧
     closes (shared st') = doneChan l :: closes (shared st) ∧
     calls (shared st') = SessionDestroy (sessionID l) :: KVDelete "k" :: calls (shared st) ∧
     acquiredlocks (shared st') !! "k" = Some l).
Proof.
  intros st l o oe.
  apply (C4_Unlock_held_error_keeps_entry st 1 "k" "unreachable" l o oe);
    try reflexivity.
  apply not_elem_of_nil.
Defined.

(** C6: what the code does when [Unlock] is called again after an
    [Unlock] of the same held key that returned the error of
    [KV().Delete]: the entry is still in [acquiredlocks], so line 204
    closes the same channel a second time, and the process panics. *)
Theorem C6_second_Unlock_closes_again (st : State) (t1 t2 : nat) (key e : string)
    (l : locks) (o oe : oracle) :
  t1 ≠ t2 →
  pool st !! t1 = Some (GUnlock key U_start) →
  pool st !! t2 = Some (GUnlock key U_start) →
  m (shared st) = None → panicked (shared st) = false →
  acquiredlocks (shared st) !! key = Some l →
  doneChan l ∉ closes (shared st) → o_err oe = Some e →
  ∃ st', run ((EvStep t1 <$> [o; o; o; oe; o]) ++ (EvStep t2 <$> [o; o; o])) st = Some st' ∧
    pool st' !! t1 = Some (GUnlock key (U_done (Some (ErrBackend e)))) ∧
    closes (shared st') = doneChan l :: doneChan l :: closes (shared st) ∧
    ¬ NoDup (closes (shared st')) ∧
    panicked (shared st') = true.
Proof.
  intros Hne Hl1 Hl2 Hm Hp Hacq Hcl Hoe.
  pose proof (Unlock_held_delete_fails_grun t1 key e l o o o oe o _ Hm Hp Hacq Hcl Hoe) as Hg1.
  pose proof (grun_run _ _ _ _ _ _ Hl1 Hg1) as R1.
  match type of R1 with _ = Some ?x => set (st1 := x) in * end.
  assert (Hl2' : pool st1 !! t2 = Some (GUnlock key U_start)).
  { simpl. by rewrite lookup_insert_ne. }
  assert (Hin : doneChan l ∈ closes (shared st1)) by (simpl; left).
  pose proof (Unlock_held_closed_grun t2 key l o o o (shared st1) Hm Hp Hacq Hin) as Hg2.
  pose proof (grun_run _ _ _ _ _ _ Hl2' Hg2) as R2.
  eexists. split; [rewrite run_app, R1; exact R2|]. simpl.
  rewrite lookup_insert_ne, lookup_insert_eq by done. split_and!; try done.
  intros Hnd. apply NoDup_cons in Hnd as [Hnotin _]. apply Hnotin. left.
Qed.

Lemma C6_second_Unlock_closes_again_witness :
  ∃ st', run ((EvStep 1 <$> [ok ""; ok ""; ok ""; fails "unreachable"; ok ""]) ++
              (EvStep 2 <$> [ok ""; ok ""; ok ""])) held_two_unlocks = Some st' ∧
    pool st' !! 1 = Some (GUnlock "k" (U_done (Some (ErrBackend "unreachable")))) ∧
    closes (shared st') = [0; 0] ∧
    ¬ NoDup (closes (shared st')) ∧
    panicked (shared st') = true.
Proof.
  apply (C6_second_Unlock_closes_again held_two_unlocks 1 2 "k" "unreachable"
           (mkLocks "s1" 0) (ok "") (fails "unreachable")); try reflexivity.
  - discriminate.
  - apply not_elem_of_nil.
Defined.

(** ** C2: [Stop] *)

(** Once [Stop] holds the mutex over a non-empty map it stays in its loop:
    its call of [Unlock] waits for the mutex, and no other goroutine can
    release it or write the maps. *)
Lemma stop_waiting_step (t : nat) (A : gmap string locks) (ev : event) (st st' : State) :
  A ≠ ∅ → stop_waiting t A st → step ev st = Some st' →
  stop_waiting t A st' ∧
  (∀ k, pool st !! t = Some (GStop (S_unlock ∅ k U_start)) →
        pool st' !! t = Some (GStop (S_unlock ∅ k U_start))).
Proof.
  intros HA (Hmu & Hm & Hacq & Hpc) Hstep.
  pose proof (mutex_inv_step _ _ _ Hmu Hstep) as Hmu'.
  destruct ev as [t2 o | t2].
  - apply step_EvStep in Hstep as (_ & g & g' & s' & Hg & Hs & ->).
    destruct (decide (t2 = t)) as [-> | Hne].
    + (* Stop itself *)
      destruct Hpc as [Hpc | (k & Hk & Hpc)]; rewrite Hpc in Hg; injection Hg as <-.
      * simpl in Hs. rewrite Hacq in Hs.
        destruct (decide (dom A ⊆ ∅)) as [Hsub | _].
        { exfalso. apply HA. apply dom_empty_iff_L. set_solver. }
        destruct (decide (o_key o ∈ dom A ∖ ∅)) as [Hin | _]; [|discriminate].
        injection Hs as <- <-. split.
        -- split_and!; try done. right. exists (o_key o). simpl.
           rewrite lookup_insert_eq. split; [|done].
           apply elem_of_dom. by apply elem_of_difference in Hin as [Hin _].
        -- intros k Hk. congruence.
      * simpl in Hs. unfold mutex_lock in Hs. rewrite Hm in Hs. discriminate.
    + (* another goroutine: it is outside every critical section *)
      destruct (Hmu t2 g Hg) as [Hb Hh].
      assert (Hout : holds g = false).
      { destruct (holds g); [|done]. specialize (Hh eq_refl). congruence. }
      destruct (gstep_registry _ _ _ _ _ _ Hs Hout) as [Hacq' _].
      destruct (gstep_mutex _ _ _ _ _ _ Hs Hb Hh) as (_ & _ & Hm').
      assert (Hms : m s' = Some t).
      { destruct Hm' as [-> | [Hn | Hn]]; congruence. }
      split.
      * unfold stop_waiting. simpl.
        split_and!; [exact Hmu' | exact Hms | congruence |].
        rewrite lookup_insert_ne by done. exact Hpc.
      * intros k Hk. simpl. by rewrite lookup_insert_ne.
  - apply step_EvCancel in Hstep as (_ & key & val & ctx & pc & Hg & ->).
    assert (Hne : t2 ≠ t).
    { intros ->. destruct Hpc as [Hpc | (k & _ & Hpc)]; congruence. }
    split.
    + unfold stop_waiting. simpl. split_and!; [exact Hmu' | exact Hm | exact Hacq |].
      rewrite lookup_insert_ne by done. exact Hpc.
    + intros k Hk. simpl. by rewrite lookup_insert_ne.
Qed.

Lemma stop_waiting_run (t : nat) (A : gmap string locks) (k : string)
    (evs : list event) (st st' : State) :
  A ≠ ∅ → stop_waiting t A st →
  pool st !! t = Some (GStop (S_unlock ∅ k U_start)) →
  run evs st = Some st' →
  stop_waiting t A st' ∧ pool st' !! t = Some (GStop (S_unlock ∅ k U_start)).
Proof.
  intros HA Hw Hpc Hrun.
  apply (run_invariant
           (λ s, stop_waiting t A s ∧ pool s !! t = Some (GStop (S_unlock ∅ k U_start))))
    with (evs := evs) (st := st); [|done|done].
  intros ev s1 s2 [Hw1 Hpc1] Hstep.
  destruct (stop_waiting_step t A ev s1 s2 HA Hw1 Hstep) as [Hw2 Hkeep]. auto.
Qed.

(** [Stop] up to the call of [Unlock] on the key the [range] yields. *)
Lemma Stop_enters_Unlock (t : nat) (k : string) (l : locks) (o1 o2 : oracle) (s : Shared) :
  m s = None → panicked s = false → acquiredlocks s !! k = Some l → o_key o2 = k →
  grun t [o1; o2] (GStop S_start) s = Some (GStop (S_unlock ∅ k U_start), set_m (Some t) s).
Proof.
  intros Hm Hp Hk Ho. destruct s as [cfg acq att mu nc cl se ca pa]. simpl in *. subst.
  simpl.
  assert (Hin : o_key o2 ∈ dom acq) by (apply elem_of_dom; eauto).
  destruct (decide (dom acq ⊆ ∅)) as [Hsub | _]; [set_solver|].
  destruct (decide (o_key o2 ∈ dom acq ∖ ∅)) as [_ | Hn]; [reflexivity | set_solver].
Qed.

(** [Stop] over an empty map: lock, end of the loop, unlock, return nil. *)
Lemma Stop_empty (t : nat) (o1 o2 o3 : oracle) (s : Shared) :
  m s = None → panicked s = false → acquiredlocks s = ∅ →
  grun t [o1; o2; o3] (GStop S_start) s = Some (GStop S_done, s).
Proof.
  intros Hm Hp Hk. destruct s as [cfg acq att mu nc cl se ca pa]. simpl in *. subst.
  simpl. destruct (decide (dom (∅ : gmap string locks) ⊆ ∅)) as [_ | Hn]; [reflexivity|].
  exfalso. apply Hn. set_solver.
Qed.

(** C2: what the code does. With a key held, [Stop] locks [c.m], enters
    its loop and calls [Unlock], which waits for [c.m]; from then on, in
    every run, [Stop] is still at that call, the mutex is still locked,
    and [acquiredlocks] is unchanged. Over an empty map [Stop] returns. *)
Theorem C2_Stop_waits_for_its_own_mutex :
  (∀ st t k l o,
     reachable st → pool st !! t = Some (GStop S_start) →
     m (shared st) = None → panicked (shared st) = false →
     acquiredlocks (shared st) !! k = Some l → o_key o = k →
     ∃ st1, run (EvStep t <$> [o; o]) st = Some st1 ∧
       pool st1 !! t = Some (GStop (S_unlock ∅ k U_start)) ∧
       ∀ evs st', run evs st1 = Some st' →
         pool st' !! t = Some (GStop (S_unlock ∅ k U_start)) ∧
         m (shared st') = Some t ∧
         acquiredlocks (shared st') = acquiredlocks (shared st)) ∧
  (∀ st t o,
     pool st !! t = Some (GStop S_start) →
     m (shared st) = None → panicked (shared st) = false →
     acquiredlocks (shared st) = ∅ →
     ∃ st', run (EvStep t <$> [o; o; o]) st = Some st' ∧
       pool st' !! t = Some (GStop S_done) ∧ shared st' = shared st).
Proof.
  split.
  - intros st t k l o Hr Hl Hm Hp Hk Ho.
    pose proof (Stop_enters_Unlock t k l o o _ Hm Hp Hk Ho) as Hg.
    pose proof (grun_run _ _ _ _ _ _ Hl Hg) as R1.
    match type of R1 with _ = Some ?x => set (st1 := x) in * end.
    assert (Hpc : pool st1 !! t = Some (GStop (S_unlock ∅ k U_start)))
      by apply lookup_insert_eq.
    assert (HA : acquiredlocks (shared st) ≠ ∅).
    { intros HA. rewrite HA, lookup_empty in Hk. discriminate. }
    assert (Hw : stop_waiting t (acquiredlocks (shared st)) st1).
    { split_and!; try done.
      - apply Inv_reachable in Hr. eapply Inv_run in R1 as (Hmu & _); done.
      - right. exists k. split; [eauto | exact Hpc]. }
    exists st1. split_and!; [exact R1 | exact Hpc |].
    intros evs st' Hrun.
    destruct (stop_waiting_run t _ k evs st1 st' HA Hw Hpc Hrun) as [(_ & Hm' & Hacq' & _) Hpc'].
    done.
  - intros st t o Hl Hm Hp Hk.
    pose proof (Stop_empty t o o o _ Hm Hp Hk) as Hg.
    eexists. split; [exact (grun_run _ _ _ _ _ _ Hl Hg)|]. simpl.
    by rewrite lookup_insert_eq.
Qed.

Lemma C2_Stop_waits_for_its_own_mutex_witness :
  ∃ st1, run (EvStep 1 <$> [yields "k"; yields "k"]) held_stop = Some st1 ∧
    pool st1 !! 1 = Some (GStop (S_unlock ∅ "k" U_start)) ∧
    ∀ evs st', run evs st1 = Some st' →
      pool st' !! 1 = Some (GStop (S_unlock ∅ "k" U_start)) ∧
      m (shared st') = Some 1 ∧
      acquiredlocks (shared st') = acquiredlocks (shared held_stop).
Proof.
  apply (proj1 C2_Stop_waits_for_its_own_mutex held_stop 1 "k" (mkLocks "s1" 0) (yields "k"));
    try reflexivity.
  exact (reachable_run _ _ _ initial_lock_and_stop run_held_stop).
Defined.

(** ** The states the theorems above are applied to are reachable *)

Lemma lock_contending_reachable : reachable lock_contending.
Proof. exact (reachable_run _ _ _ initial_lock_and_unlock run_contend). Qed.

Lemma held_two_unlocks_reachable : reachable held_two_unlocks.
Proof. exact (reachable_run _ _ _ initial_lock_and_two_unlocks run_held_two_unlocks). Qed.

Lemma lock_cancelled_twice_reachable : reachable lock_cancelled_twice.
Proof. exact (reachable_run _ _ _ initial_lock_and_unlock run_cancel). Qed.

(** After the [Unlock] of C3 the pending [Lock] finds its channel closed,
    returns [ErrCanceled], and only its deferred function removes the key. *)
Example Lock_after_Unlock_during_contention :
  ∃ st, run (contend_evs ++ replicate 6 (EvStep 1 (ok "")) ++ replicate 4 (EvStep 0 (ok "")))
          lock_and_unlock = Some st ∧
    pool st !! 0 = Some (GLock "k" "v" false (L_done (false, Some ErrCanceled))) ∧
    attemtinglocks (shared st) !! "k" = None.
Proof. eexists. split; [vm_compute; reflexivity|]. split; reflexivity. Qed.

(** * Further properties of the locker *)

(** ** [Unlock] of a key the locker does not know *)

Lemma Unlock_unknown_grun (t : nat) (key : string) (o1 o2 o3 : oracle) (s : Shared) :
  m s = None → panicked s = false →
  acquiredlocks s !! key = None → attemtinglocks s !! key = None →
  grun t [o1; o2; o3] (GUnlock key U_start) s =
    Some (GUnlock key (U_done (Some ErrUnknownKey)), s).
Proof.
  intros Hm Hp Hacq Hatt. destruct s as [cfg acq att mu nc cl se ca pa].
  simpl in *. subst. simpl. rewrite Hacq, Hatt. reflexivity.
Qed.

(** X1: [Unlock] of a key that is in neither map returns "unknown key" and
    leaves the locker as it was: no channel closed, no call sent to
    Consul, both maps unchanged, the mutex released. *)
Theorem X1_Unlock_unknown_key (st : State) (t : nat) (key : string) (o : oracle) :
  pool st !! t = Some (GUnlock key U_start) →
  m (shared st) = None → panicked (shared st) = false →
  acquiredlocks (shared st) !! key = None →
  attemtinglocks (shared st) !! key = None →
  ∃ st', run (EvStep t <$> [o; o; o]) st = Some st' ∧
    pool st' !! t = Some (GUnlock key (U_done (Some ErrUnknownKey))) ∧
    shared st' = shared st.
Proof.
  intros Hl Hm Hp Hacq Hatt.
  pose proof (Unlock_unknown_grun t key o o o _ Hm Hp Hacq Hatt) as Hg.
  eexists. split; [exact (grun_run _ _ _ _ _ _ Hl Hg)|]. simpl.
  by rewrite lookup_insert_eq.
Qed.

Lemma X1_Unlock_unknown_key_witness :
  ∃ st', run (EvStep 1 <$> [ok ""; ok ""; ok ""]) lock_and_unlock = Some st' ∧
    pool st' !! 1 = Some (GUnlock "k" (U_done (Some ErrUnknownKey))) ∧
    shared st' = shared lock_and_unlock.
Proof.
  apply (X1_Unlock_unknown_key lock_and_unlock 1 "k" (ok "")); reflexivity.
Defined.

(** X2: two [Unlock] calls on a held key, Consul answering without error:
    the first closes the channel, deletes the key, destroys the session and
    returns nil; the second returns "unknown key" and closes nothing. *)
Theorem X2_Unlock_twice (st : State) (t1 t2 : nat) (key : string) (l : locks) (o : oracle) :
  t1 ≠ t2 →
  pool st !! t1 = Some (GUnlock key U_start) →
  pool st !! t2 = Some (GUnlock key U_start) →
  m (shared st) = None → panicked (shared st) = false →
  acquiredlocks (shared st) !! key = Some l →
  attemtinglocks (shared st) !! key = None →
  doneChan l ∉ closes (shared st) → o_err o = None →
  ∃ st', run ((EvStep t1 <$> replicate 7 o) ++ (EvStep t2 <$> replicate 3 o)) st = Some st' ∧
    pool st' !! t1 = Some (GUnlock key (U_done None)) ∧
    pool st' !! t2 = Some (GUnlock key (U_done (Some ErrUnknownKey))) ∧
    closes (shared st') = doneChan l :: closes (shared st) ∧
    calls (shared st') = SessionDestroy (sessionID l) :: KVDelete key :: calls (shared st) ∧
    acquiredlocks (shared st') = delete key (acquiredlocks (shared st)) ∧
    attemtinglocks (shared st') = attemtinglocks (shared st) ∧
    m (shared st') = None ∧ panicked (shared st') = false.
Proof.
  intros Hne Hl1 Hl2 Hm Hp Hacq Hatt Hcl Ho.
  pose proof (Unlock_held_grun t1 key l o o o o o o o _ Hm Hp Hacq Hcl Ho Ho) as Hg1.
  pose proof (grun_run _ _ _ _ _ _ Hl1 Hg1) as R1.
  match type of R1 with _ = Some ?x => set (st1 := x) in * end.
  assert (Hl2' : pool st1 !! t2 = Some (GUnlock key U_start)).
  { simpl. by rewrite lookup_insert_ne. }
  assert (Hacq1 : acquiredlocks (shared st1) !! key = None) by apply lookup_delete_eq.
  pose proof (Unlock_unknown_grun t2 key o o o (shared st1) Hm Hp Hacq1 Hatt) as Hg2.
  pose proof (grun_run _ _ _ _ _ _ Hl2' Hg2) as R2.
  eexists. split.
  { rewrite run_app. change (replicate 7 o) with [o; o; o; o; o; o; o].
    rewrite R1. exact R2. }
  simpl. rewrite lookup_insert_ne, !lookup_insert_eq by done. by split_and!.
Qed.

Lemma X2_Unlock_twice_witness :
  ∃ st', run ((EvStep 1 <$> replicate 7 (ok "")) ++ (EvStep 2 <$> replicate 3 (ok "")))
           held_two_unlocks = Some st' ∧
    pool st' !! 1 = Some (GUnlock "k" (U_done None)) ∧
    pool st' !! 2 = Some (GUnlock "k" (U_done (Some ErrUnknownKey))) ∧
    closes (shared st') = [0] ∧
    calls (shared st') =
      SessionDestroy "s1" :: KVDelete "k" :: calls (shared held_two_unlocks) ∧
    acquiredlocks (shared st') = delete "k" (acquiredlocks (shared held_two_unlocks)) ∧
    attemtinglocks (shared st') = attemtinglocks (shared held_two_unlocks) ∧
    m (shared st') = None ∧ panicked (shared st') = false.
Proof.
  apply (X2_Unlock_twice held_two_unlocks 1 2 "k" (mkLocks "s1" 0) (ok ""));
    try reflexivity.
  - discriminate.
  - apply not_elem_of_nil.
Defined.

(** ** The loop of [Lock] *)












(** ** [Lock] and cancellation *)

Lemma Lock_cancelled_start_grun (t : nat) (key val : string) (o1 o2 o3 o4 o5 : oracle)
    (s : Shared) :
  m s = None → panicked s = false → nextChan s ∉ closes s →
  grun t [o1; o2; o3; o4; o5] (GLock key val true L_start) s =
    Some (GLock key val true (L_done (false, Some ErrContext)),
          mkShared (Cfg s) (acquiredlocks s) (delete key (attemtinglocks s)) None
            (S (nextChan s)) (closes s) (sent s) (calls s) false).
Proof.
  intros Hm Hp Hcl. destruct s as [cfg acq att mu nc cl se ca pa]. simpl in *. subst.
  unfold chan_closed; simpl. by rewrite bool_decide_eq_false_2.
Qed.

(** The first two steps of a [Lock] whose context is cancelled: the
    channel is made, the [select] takes [ctx.Done()]. Neither needs the
    mutex. *)
Lemma Lock_cancelled_select_grun (t : nat) (key val : string) (o1 o2 : oracle) (s : Shared) :
  panicked s = false → nextChan s ∉ closes s →
  grun t [o1; o2] (GLock key val true L_start) s =
    Some (GLock key val true (L_defer (false, Some ErrContext)),
          set_nextChan (S (nextChan s)) s).
Proof.
  intros Hp Hcl. destruct s as [cfg acq att mu nc cl se ca pa]. simpl in *. subst.
  unfold chan_closed; simpl. by rewrite bool_decide_eq_false_2.
Qed.

(** X4: a [Lock] called with a context that is already cancelled takes
    the return (false, ctx.Err()) at its first [select], whether or not
    another goroutine holds the mutex: it sends no call to Consul, closes
    nothing and leaves both maps and the mutex alone. Its deferred function
    then waits while the mutex is locked; once it is free, [Lock] returns
    that value in three steps, with the key deleted from
    [attemtinglocks]. *)
Theorem X4_Lock_cancelled_before_first_call (st : State) (t : nat) (key val : string)
    (o : oracle) :
  reachable st → pool st !! t = Some (GLock key val true L_start) →
  panicked (shared st) = false →
  ∃ st1, run (EvStep t <$> [o; o]) st = Some st1 ∧
    pool st1 !! t = Some (GLock key val true (L_defer (false, Some ErrContext))) ∧
    calls (shared st1) = calls (shared st) ∧
    closes (shared st1) = closes (shared st) ∧
    acquiredlocks (shared st1) = acquiredlocks (shared st) ∧
    attemtinglocks (shared st1) = attemtinglocks (shared st) ∧
    m (shared st1) = m (shared st) ∧
    (m (shared st) ≠ None → step (EvStep t o) st1 = None) ∧
    (m (shared st) = None →
     ∃ st', run (EvStep t <$> [o; o; o]) st1 = Some st' ∧
       pool st' !! t = Some (GLock key val true (L_done (false, Some ErrContext))) ∧
       calls (shared st') = calls (shared st) ∧
       closes (shared st') = closes (shared st) ∧
       acquiredlocks (shared st') = acquiredlocks (shared st) ∧
       attemtinglocks (shared st') = delete key (attemtinglocks (shared st)) ∧
       m (shared st') = None ∧ panicked (shared st') = false).
Proof.
  intros Hr Hl Hp.
  apply Inv_reachable in Hr as (_ & _ & _ & [_ (_ & _ & Hcl & _)] & _).
  assert (Hfresh : nextChan (shared st) ∉ closes (shared st)).
  { intros Hin. apply Hcl in Hin. lia. }
  pose proof (Lock_cancelled_select_grun t key val o o _ Hp Hfresh) as Hg.
  pose proof (grun_run _ _ _ _ _ _ Hl Hg) as R1.
  match type of R1 with _ = Some ?x => set (st1 := x) in * end.
  assert (Hl1 : pool st1 !! t = Some (GLock key val true (L_defer (false, Some ErrContext))))
    by apply lookup_insert_eq.
  exists st1. split_and!; try done.
  - intros Hm. unfold step. simpl. rewrite Hp, lookup_insert_eq. simpl.
    unfold mutex_lock. simpl. by destruct (m (shared st)).
  - intros Hm.
    pose proof (Lock_deferred t key val true (false, Some ErrContext) o o o (shared st1) Hm Hp)
      as Hg2.
    eexists. split; [exact (grun_run _ _ _ _ _ _ Hl1 Hg2)|]. simpl.
    rewrite lookup_insert_eq. by split_and!.
Qed.

Lemma X4_Lock_cancelled_before_first_call_witness :
  ∃ st1, run (EvStep 0 <$> [ok "s1"; ok "s1"]) lock_cancelled_early = Some st1 ∧
    pool st1 !! 0 = Some (GLock "k" "v" true (L_defer (false, Some ErrContext))) ∧
    calls (shared st1) = calls (shared lock_cancelled_early) ∧
    closes (shared st1) = closes (shared lock_cancelled_early) ∧
    acquiredlocks (shared st1) = acquiredlocks (shared lock_cancelled_early) ∧
    attemtinglocks (shared st1) = attemtinglocks (shared lock_cancelled_early) ∧
    m (shared st1) = m (shared lock_cancelled_early) ∧
    (m (shared lock_cancelled_early) ≠ None → step (EvStep 0 (ok "s1")) st1 = None) ∧
    (m (shared lock_cancelled_early) = None →
     ∃ st', run (EvStep 0 <$> [ok "s1"; ok "s1"; ok "s1"]) st1 = Some st' ∧
       pool st' !! 0 = Some (GLock "k" "v" true (L_done (false, Some ErrContext))) ∧
       calls (shared st') = calls (shared lock_cancelled_early) ∧
       closes (shared st') = closes (shared lock_cancelled_early) ∧
       acquiredlocks (shared st') = acquiredlocks (shared lock_cancelled_early) ∧
       attemtinglocks (shared st') = delete "k" (attemtinglocks (shared lock_cancelled_early)) ∧
       m (shared st') = None ∧ panicked (shared st') = false).
Proof.
  apply (X4_Lock_cancelled_before_first_call lock_cancelled_early 0 "k" "v" (ok "s1"));
    try reflexivity.
  exact (reachable_run lock_alone _ [EvCancel 0] initial_lock_alone eq_refl).
Defined.




(** X6: [Unlock] in the window between the insertion into
    [acquiredlocks] (line 160) and the deferred function of [Lock]:
    [Unlock] releases the key (channel closed, key deleted in Consul,
    session destroyed, entry removed), and [Lock] then still returns
    (true, nil), with the key in neither map. *)
Theorem X6_Lock_returns_true_after_Unlock (st : State) (t1 t2 : nat) (key val : string)
    (ctx : bool) (l : locks) (o : oracle) :
  t1 ≠ t2 →
  pool st !! t1 = Some (GLock key val ctx (L_defer (true, None))) →
  pool st !! t2 = Some (GUnlock key U_start) →
  m (shared st) = None → panicked (shared st) = false →
  acquiredlocks (shared st) !! key = Some l →
  doneChan l ∉ closes (shared st) → o_err o = None →
  ∃ st', run ((EvStep t2 <$> replicate 7 o) ++ (EvStep t1 <$> replicate 3 o)) st = Some st' ∧
    pool st' !! t2 = Some (GUnlock key (U_done None)) ∧
    pool st' !! t1 = Some (GLock key val ctx (L_done (true, None))) ∧
    closes (shared st') = doneChan l :: closes (shared st) ∧
    calls (shared st') = SessionDestroy (sessionID l) :: KVDelete key :: calls (shared st) ∧
    acquiredlocks (shared st') !! key = None ∧
    attemtinglocks (shared st') !! key = None.
Proof.
  intros Hne Hl1 Hl2 Hm Hp Hacq Hcl Ho.
  pose proof (Unlock_held_grun t2 key l o o o o o o o _ Hm Hp Hacq Hcl Ho Ho) as Hg2.
  pose proof (grun_run _ _ _ _ _ _ Hl2 Hg2) as R2.
  match type of R2 with _ = Some ?x => set (st1 := x) in * end.
  assert (Hl1' : pool st1 !! t1 = Some (GLock key val ctx (L_defer (true, None)))).
  { simpl. by rewrite lookup_insert_ne. }
  pose proof (Lock_deferred t1 key val ctx (true, None) o o o (shared st1) Hm Hp) as Hg1.
  pose proof (grun_run _ _ _ _ _ _ Hl1' Hg1) as R1.
  eexists. split.
  { rewrite run_app. change (replicate 7 o) with [o; o; o; o; o; o; o].
    rewrite R2. exact R1. }
  simpl. rewrite lookup_insert_ne, !lookup_insert_eq, !lookup_delete_eq by done.
  by split_and!.
Qed.

Lemma run_acquired_and_unlock : run acquire_evs lock_and_unlock = Some acquired_and_unlock.
Proof. vm_compute. reflexivity. Qed.

Lemma X6_Lock_returns_true_after_Unlock_witness :
  ∃ st', run ((EvStep 1 <$> replicate 7 (ok "")) ++ (EvStep 0 <$> replicate 3 (ok "")))
           acquired_and_unlock = Some st' ∧
    pool st' !! 1 = Some (GUnlock "k" (U_done None)) ∧
    pool st' !! 0 = Some (GLock "k" "v" false (L_done (true, None))) ∧
    closes (shared st') = 0 :: closes (shared acquired_and_unlock) ∧
    calls (shared st') =
      SessionDestroy "s1" :: KVDelete "k" :: calls (shared acquired_and_unlock) ∧
    acquiredlocks (shared st') !! "k" = None ∧
    attemtinglocks (shared st') !! "k" = None.
Proof.
  apply (X6_Lock_returns_true_after_Unlock acquired_and_unlock 0 1 "k" "v" false
           (mkLocks "s1" 0) (ok "")); try reflexivity.
  - discriminate.
  - apply not_elem_of_nil.
Defined.

(** ** The mutex, the channels and panics *)

Lemma gstep_closes (t : nat) (o : oracle) (g g' : goroutine) (s s' : Shared) :
  gstep t o g s = Some (g', s') →
  panicked s = false → stop_blocked g = true → (holds g = true → m s = Some t) →
  NoDup (closes s) →
  (panicked s' = false ∧ NoDup (closes s')) ∨ (panicked s' = true ∧ ¬ NoDup (closes s')).
Proof.
  intros H Hp Hb Hh Hnd.
  step_cases H; simpl in *; try (specialize (Hh eq_refl)); try congruence;
    try (left; split; [assumption | assumption]).
  all: first
    [ left; split; [assumption | apply NoDup_cons; by split]
    | right; split; [reflexivity | rewrite NoDup_cons; tauto] ].
Qed.

Lemma closes_inv_step (ev : event) (st st' : State) :
  mutex_inv st → closes_inv st → step ev st = Some st' → closes_inv st'.
Proof.
  intros Hmu Hinv Hstep. unfold closes_inv in *. destruct ev as [t o | t].
  - apply step_EvStep in Hstep as (Hp & g & g' & s' & Hg & Hs & ->). simpl.
    rewrite Hp in Hinv. destruct (Hmu t g Hg) as [Hb Hh].
    destruct (gstep_closes _ _ _ _ _ _ Hs Hp Hb Hh Hinv) as [[-> ?] | [-> ?]]; done.
  - apply step_EvCancel in Hstep as (_ & key & val & ctx & pc & Hg & ->). exact Hinv.
Qed.

(** X7: in every reachable state at most one goroutine is inside a
    critical section, and it is the one that locked [c.m]; as long as the
    process has not panicked no channel has been closed twice; and a panic
    is always a second [close] of a channel, never an unlock of the
    unlocked mutex. *)
Theorem X7_mutex_and_close_discipline (st : State) :
  reachable st →
  (∀ t g, pool st !! t = Some g → holds g = true → m (shared st) = Some t) ∧
  (∀ t1 t2 g1 g2, pool st !! t1 = Some g1 → pool st !! t2 = Some g2 →
     holds g1 = true → holds g2 = true → t1 = t2) ∧
  (panicked (shared st) = false → NoDup (closes (shared st))) ∧
  (panicked (shared st) = true → ¬ NoDup (closes (shared st))).
Proof.
  intros (st0 & evs & Hinit & Hrun).
  assert (Hboth : mutex_inv st ∧ closes_inv st).
  { apply (run_invariant (λ s, mutex_inv s ∧ closes_inv s)) with (evs := evs) (st := st0);
      [| |exact Hrun].
    - intros ev s1 s2 [H1 H2] Hstep.
      split; [by eapply mutex_inv_step | by eapply closes_inv_step].
    - split; [by apply Inv_initial in Hinit as (? & _)|].
      destruct Hinit as [[cfg Hs] _]. unfold closes_inv. rewrite Hs. simpl. apply NoDup_nil_2. }
  destruct Hboth as [Hmu Hcl]. unfold closes_inv in Hcl. split_and!.
  - intros t g Hl Hh. by apply (Hmu t g Hl).
  - intros t1 t2 g1 g2 Hl1 Hl2 Hh1 Hh2.
    destruct (Hmu t1 g1 Hl1) as [_ H1]. destruct (Hmu t2 g2 Hl2) as [_ H2].
    specialize (H1 Hh1). specialize (H2 Hh2). congruence.
  - intros Hp. by rewrite Hp in Hcl.
  - intros Hp. by rewrite Hp in Hcl.
Qed.

Lemma X7_mutex_and_close_discipline_witness :
  (∀ t g, pool held_two_unlocks !! t = Some g → holds g = true →
          m (shared held_two_unlocks) = Some t) ∧
  (∀ t1 t2 g1 g2, pool held_two_unlocks !! t1 = Some g1 →
     pool held_two_unlocks !! t2 = Some g2 →
     holds g1 = true → holds g2 = true → t1 = t2) ∧
  (panicked (shared held_two_unlocks) = false → NoDup (closes (shared held_two_unlocks))) ∧
  (panicked (shared held_two_unlocks) = true → ¬ NoDup (closes (shared held_two_unlocks))).
Proof.
  apply (X7_mutex_and_close_discipline held_two_unlocks).
  exact (reachable_run _ _ _ initial_lock_and_two_unlocks run_held_two_unlocks).
Defined.

(** ** What the maps and the return values record *)

Lemma gstep_calls (t : nat) (o : oracle) (g g' : goroutine) (s s' : Shared) :
  gstep t o g s = Some (g', s') → ∀ c, c ∈ calls s → c ∈ calls s'.
Proof. intros H c Hc. step_cases H; simpl; try done; by right. Qed.

Lemma gstep_acquire (t : nat) (o : oracle) (g g' : goroutine) (s s' : Shared) :
  gstep t o g s = Some (g', s') →
  (∀ key val sid, won g = Some (key, val, sid) → KVAcquire key val sid ∈ calls s) →
  (∀ k l, acquiredlocks s !! k = Some l → ∃ val, KVAcquire k val (sessionID l) ∈ calls s) →
  (∀ key val sid, won g' = Some (key, val, sid) → KVAcquire key val sid ∈ calls s') ∧
  (∀ k l, acquiredlocks s' !! k = Some l → ∃ val, KVAcquire k val (sessionID l) ∈ calls s').
Proof.
  intros H Hw Hacq.
  step_cases H; simpl in *; split;
    try (intros ? ? ? [= <- <- <-]); try (intros ? ? ? [=]);
    try (by left); try (by eapply Hw);
    intros k0 l0 Hl0;
    repeat match goal with
      | H : <[_ := _]> _ !! _ = Some _ |- _ =>
          apply lookup_insert_Some in H as [[<- <-] | [_ H]]
      | H : delete _ _ !! _ = Some _ |- _ => apply lookup_delete_Some in H as [_ H]
      end;
    try (eexists; by eapply Hw);
    destruct (Hacq k0 l0 Hl0) as [v Hv]; exists v; simpl; try done; by right.
Qed.

Lemma acquire_inv_step (ev : event) (st st' : State) :
  acquire_inv st → step ev st = Some st' → acquire_inv st'.
Proof.
  intros [Hacq Hw] Hstep. destruct ev as [t o | t].
  - apply step_EvStep in Hstep as (_ & g & g' & s' & Hg & Hs & ->).
    destruct (gstep_acquire _ _ _ _ _ _ Hs (λ key val sid, Hw t g key val sid Hg) Hacq)
      as [Hw' Hacq'].
    split; [exact Hacq'|]. intros t2 g2 key val sid Hl Hwon. simpl in *.
    destruct (decide (t = t2)) as [<- | Hne].
    + rewrite lookup_insert_eq in Hl. injection Hl as <-. auto.
    + rewrite lookup_insert_ne in Hl by done.
      eapply gstep_calls; [exact Hs|]. eauto.
  - apply step_EvCancel in Hstep as (_ & key & val & ctx & pc & Hg & ->).
    split; [exact Hacq|]. intros t2 g2 key2 val2 sid Hl Hwon. simpl in *.
    destruct (decide (t = t2)) as [<- | Hne].
    + rewrite lookup_insert_eq in Hl. injection Hl as <-. eapply (Hw t); [exact Hg|].
      exact Hwon.
    + rewrite lookup_insert_ne in Hl by done. eauto.
Qed.

(** X8: in every reachable state, each key in [acquiredlocks] was the
    object of a [KV().Acquire] sent to Consul under the session recorded in
    its entry: no key is recorded as held without that call. *)
Theorem X8_held_entries_were_acquired (st : State) (k : string) (l : locks) :
  reachable st → acquiredlocks (shared st) !! k = Some l →
  ∃ val, KVAcquire k val (sessionID l) ∈ calls (shared st).
Proof.
  intros (st0 & evs & Hinit & Hrun) Hl.
  assert (Hinv : acquire_inv st).
  { apply (run_invariant acquire_inv) with (evs := evs) (st := st0);
      [intros ev s1 s2; apply acquire_inv_step | | exact Hrun].
    destruct Hinit as [[cfg Hs] Hentry]. split.
    - intros k0 l0. rewrite Hs. simpl. by rewrite lookup_empty.
    - intros t g key val sid Hg Hw. specialize (Hentry t g Hg).
      destruct g as [? ? [] [] | ? [] | ? [] | []]; simpl in *; discriminate. }
  by apply Hinv.
Qed.

Lemma X8_held_entries_were_acquired_witness :
  ∃ val, KVAcquire "k" val "s1" ∈ calls (shared lock_returned).
Proof.
  apply (X8_held_entries_were_acquired lock_returned "k" (mkLocks "s1" 0)).
  - exact (reachable_run _ _ _ initial_lock_alone run_lock_alone).
  - reflexivity.
Defined.

Lemma gstep_result (t : nat) (o : oracle) (key val : string) (ctx : bool)
    (pc pc' : lock_pc) (s s' : Shared) (r : bool * option error) :
  Lock_step t key val ctx o pc s = Some (pc', s') →
  lock_result pc' = Some r →
  lock_result pc = Some r ∨
  r = (true, None) ∨ (r = (false, Some ErrContext) ∧ ctx = true) ∨
  r = (false, Some ErrCanceled).
Proof.
  intros H Hr. destruct pc; simpl in H; unfold_ops;
    repeat (first [discriminate | progress simplify_option_eq | progress case_match]);
    simpl in *; simplify_eq; auto.
Qed.

Lemma result_inv_step (ev : event) (st st' : State) :
  result_inv st → step ev st = Some st' → result_inv st'.
Proof.
  intros Hinv Hstep. destruct ev as [t o | t].
  - apply step_EvStep in Hstep as (_ & g & g' & s' & Hg & Hs & ->).
    intros t2 key val ctx pc r Hl Hr. simpl in *.
    destruct (decide (t = t2)) as [<- | Hne].
    + rewrite lookup_insert_eq in Hl. injection Hl as ->.
      destruct g as [key0 val0 ctx0 pc0 | | |]; simpl in Hs;
        try (match type of Hs with
             | (?x ≫= _) = _ => destruct x as [[? ?]|]; simpl in Hs; discriminate
             end).
      destruct (Lock_step t key0 val0 ctx0 o pc0 (shared st)) as [[pc1 s1]|] eqn:E;
        [|discriminate]. simpl in Hs. injection Hs as <- <- <- <- <-.
      destruct (gstep_result _ _ _ _ _ _ _ _ _ _ E Hr) as [Hold | Hnew]; [|exact Hnew].
      eapply Hinv; eauto.
    + rewrite lookup_insert_ne in Hl by done. eapply Hinv; eauto.
  - apply step_EvCancel in Hstep as (_ & key & val & ctx & pc & Hg & ->).
    intros t2 key2 val2 ctx2 pc2 r Hl Hr. simpl in *.
    destruct (decide (t = t2)) as [<- | Hne].
    + rewrite lookup_insert_eq in Hl. injection Hl as <- <- <- <-.
      destruct (Hinv t key val ctx pc r Hg Hr) as [? | [[? _] | ?]]; auto.
    + rewrite lookup_insert_ne in Hl by done. eapply Hinv; eauto.
Qed.

(** X9: whatever [Lock] returns is (true, nil), (false, ctx.Err()) or
    (false, ErrCanceled), never true with an error or false without one;
    and it returns ctx.Err() only when its context is cancelled. *)
Theorem X9_Lock_results (st : State) (t : nat) (key val : string) (ctx : bool)
    (r : bool * option error) :
  reachable st → pool st !! t = Some (GLock key val ctx (L_done r)) →
  r = (true, None) ∨ (r = (false, Some ErrContext) ∧ ctx = true) ∨
  r = (false, Some ErrCanceled).
Proof.
  intros (st0 & evs & Hinit & Hrun) Hl.
  assert (Hinv : result_inv st).
  { apply (run_invariant result_inv) with (evs := evs) (st := st0);
      [intros ev s1 s2; apply result_inv_step | | exact Hrun].
    intros t0 key0 val0 ctx0 pc r0 Hg Hr. destruct Hinit as [_ Hentry].
    specialize (Hentry t0 _ Hg). destruct ctx0, pc; simpl in *; discriminate. }
  eapply Hinv; [exact Hl | reflexivity].
Qed.

Lemma X9_Lock_results_witness :
  (true, None) = (true, @None error) ∨
  ((true, None) = (false, Some ErrContext) ∧ false = true) ∨
  (true, None) = (false, Some ErrCanceled).
Proof.
  apply (X9_Lock_results lock_returned 0 "k" "v" false (true, None)).
  - exact (reachable_run _ _ _ initial_lock_alone run_lock_alone).
  - reflexivity.
Defined.

(** ** Keys are independent *)

Lemma gstep_other_key (t : nat) (o : oracle) (g g' : goroutine) (s s' : Shared)
    (key k : string) :
  gstep t o g s = Some (g', s') → key_of g = Some key → key ≠ k →
  key_of g' = Some key ∧
  acquiredlocks s' !! k = acquiredlocks s !! k ∧
  attemtinglocks s' !! k = attemtinglocks s !! k.
Proof.
  intros H Hk Hne.
  step_cases H; simpl in *; simplify_eq; split_and!; try done;
    by rewrite ?lookup_insert_ne, ?lookup_delete_ne by done.
Qed.

Lemma avoids_step (k : string) (ev : event) (st st' : State) :
  avoids k st → step ev st = Some st' →
  avoids k st' ∧
  acquiredlocks (shared st') !! k = acquiredlocks (shared st) !! k ∧
  attemtinglocks (shared st') !! k = attemtinglocks (shared st) !! k.
Proof.
  intros Hav Hstep. destruct ev as [t o | t].
  - apply step_EvStep in Hstep as (_ & g & g' & s' & Hg & Hs & ->).
    destruct (Hav t g Hg) as [Hsome Hne].
    destruct (key_of g) as [key|] eqn:Hkey; [|done].
    assert (Hne' : key ≠ k) by congruence.
    destruct (gstep_other_key _ _ _ _ _ _ key k Hs Hkey Hne') as (Hkey' & Ha & Hb).
    split; [|done]. intros t2 g2 Hl. simpl in *.
    destruct (decide (t = t2)) as [<- | Hne2].
    + rewrite lookup_insert_eq in Hl. injection Hl as <-. rewrite Hkey'. done.
    + rewrite lookup_insert_ne in Hl by done. eauto.
  - apply step_EvCancel in Hstep as (_ & key & val & ctx & pc & Hg & ->).
    split; [|done]. intros t2 g2 Hl. simpl in *.
    destruct (decide (t = t2)) as [<- | Hne2].
    + rewrite lookup_insert_eq in Hl. injection Hl as <-. exact (Hav t _ Hg).
    + rewrite lookup_insert_ne in Hl by done. eauto.
Qed.

(** X10: [Lock], [KeepLock] and [Unlock] touch only the entries of their
    own key. Along every run in which no call is on key [k] (and [Stop] is
    not called), the entries of [k] in both maps stay as they were. *)
Theorem X10_other_keys_untouched (k : string) (evs : list event) (st st' : State) :
  avoids k st → run evs st = Some st' →
  acquiredlocks (shared st') !! k = acquiredlocks (shared st) !! k ∧
  attemtinglocks (shared st') !! k = attemtinglocks (shared st) !! k.
Proof.
  revert st. induction evs as [|ev evs IH]; intros st Hav Hrun; simpl in Hrun.
  - by injection Hrun as <-.
  - destruct (step ev st) as [st1|] eqn:E; [|discriminate]. simpl in Hrun.
    destruct (avoids_step k ev st st1 Hav E) as (Hav1 & Ha & Hb).
    destruct (IH st1 Hav1 Hrun) as [Ha' Hb']. split; congruence.
Qed.

Lemma X10_other_keys_untouched_witness :
  acquiredlocks (shared held_two_unlocks) !! "j" =
    acquiredlocks (shared lock_and_two_unlocks) !! "j" ∧
  attemtinglocks (shared held_two_unlocks) !! "j" =
    attemtinglocks (shared lock_and_two_unlocks) !! "j".
Proof.
  apply (X10_other_keys_untouched "j" lock_evs lock_and_two_unlocks held_two_unlocks).
  - apply (bool_decide_unpack (map_Forall (λ _ g, key_of g ≠ None ∧ key_of g ≠ Some "j")
                                 (pool lock_and_two_unlocks))).
    by vm_compute.
  - exact run_held_two_unlocks.
Defined.

(** ** [KeepLock] on a held key *)

Lemma initial_lock_keep_unlock : initial lock_keep_unlock.
Proof. apply initial_pool. apply (bool_decide_unpack _). by vm_compute. Qed.

Lemma run_held_keep : run lock_evs lock_keep_unlock = Some held_keep.
Proof. vm_compute. reflexivity. Qed.

Lemma KeepLock_held_returns (t : nat) (key : string) (l : locks) (o1 o2 o3 : oracle)
    (s : Shared) :
  m s = None → panicked s = false → acquiredlocks s !! key = Some l →
  grun t [o1; o2; o3] (GKeepLock key K_start) s =
    Some (GKeepLock key (K_go (sessionID l) (doneChan l) (S (nextChan s))),
          set_nextChan (S (S (nextChan s))) s).
Proof.
  intros Hm Hp Hk. destruct s as [cfg acq att mu nc cl se ca pa]. simpl in *. subst.
  simpl. rewrite Hk. reflexivity.
Qed.

Lemma KeepLock_renewal_fails (t : nat) (key sid e : string) (done errc : nat)
    (o1 o2 o3 : oracle) (s : Shared) :
  panicked s = false → sid ≠ "" → o_err o2 = Some e → o_recv o3 = true →
  grun t [o1; o2; o3] (GKeepLock key (K_go sid done errc)) s =
    Some (GKeepLock key (K_end done errc),
          mkShared (Cfg s) (acquiredlocks s) (attemtinglocks s) (m s) (nextChan s)
            (closes s) ((errc, ErrBackend e) :: sent s)
            (SessionRenewPeriodic (RenewPeriod (Cfg s)) sid done :: calls s) false).
Proof.
  intros Hp Hsid Ho2 Ho3. destruct s as [cfg acq att mu nc cl se ca pa]. simpl in *. subst.
  destruct (decide (sid = "")) as [|_]; [done|]. simpl. rewrite Ho2. simpl.
  rewrite Ho3. reflexivity.
Qed.

(** X11: [KeepLock] on a held key returns the channel recorded in the
    entry and an error channel of its own, and its goroutine starts
    [RenewPeriodic] with the configured renew period, the entry's session
    and that channel. When the renewal fails and the caller receives from
    the error channel, the goroutine delivers that one error and ends,
    whatever the state of the mutex: it closes no channel and leaves both
    maps alone, so the key stays in [acquiredlocks] until [Unlock]. While
    nobody receives, the goroutine waits at the send. *)
Theorem X11_KeepLock_held_renewal_error :
  (∀ st t key e l o oe,
     reachable st → pool st !! t = Some (GKeepLock key K_start) →
     m (shared st) = None → panicked (shared st) = false →
     acquiredlocks (shared st) !! key = Some l → sessionID l ≠ "" →
     o_err oe = Some e → o_recv oe = true →
     ∃ errc st1 st2,
       run (EvStep t <$> [o; o; o]) st = Some st1 ∧
       pool st1 !! t = Some (GKeepLock key (K_go (sessionID l) (doneChan l) errc)) ∧
       (errc ∉ (sent (shared st)).*1) ∧ errc ≠ doneChan l ∧
       run (EvStep t <$> [o; oe; oe]) st1 = Some st2 ∧
       pool st2 !! t = Some (GKeepLock key (K_end (doneChan l) errc)) ∧
       sent (shared st2) = (errc, ErrBackend e) :: sent (shared st) ∧
       calls (shared st2) =
         SessionRenewPeriodic (RenewPeriod (Cfg (shared st))) (sessionID l) (doneChan l)
           :: calls (shared st) ∧
       closes (shared st2) = closes (shared st) ∧
       acquiredlocks (shared st2) = acquiredlocks (shared st) ∧
       attemtinglocks (shared st2) = attemtinglocks (shared st)) ∧
  (∀ st t key sid e done errc o oe,
     pool st !! t = Some (GKeepLock key (K_go sid done errc)) →
     panicked (shared st) = false → sid ≠ "" →
     o_err oe = Some e → o_recv oe = true →
     ∃ st2, run (EvStep t <$> [o; oe; oe]) st = Some st2 ∧
       pool st2 !! t = Some (GKeepLock key (K_end done errc)) ∧
       sent (shared st2) = (errc, ErrBackend e) :: sent (shared st) ∧
       calls (shared st2) =
         SessionRenewPeriodic (RenewPeriod (Cfg (shared st))) sid done :: calls (shared st) ∧
       closes (shared st2) = closes (shared st) ∧
       acquiredlocks (shared st2) = acquiredlocks (shared st) ∧
       attemtinglocks (shared st2) = attemtinglocks (shared st) ∧
       m (shared st2) = m (shared st)) ∧
  (∀ st t key e done errc o,
     pool st !! t = Some (GKeepLock key (K_send_err e done errc)) →
     o_recv o = false → step (EvStep t o) st = None).
Proof.
  split_and!.
  - intros st t key e l o oe Hr Hl Hm Hp Hk Hsid Hoe Hrecv.
    apply Inv_reachable in Hr as (_ & _ & _ & [_ (Hacq & _ & _ & Hse)] & _).
    pose proof (KeepLock_held_returns t key l o o o _ Hm Hp Hk) as H1.
    pose proof (grun_run _ _ _ _ _ _ Hl H1) as R1.
    match type of R1 with _ = Some ?x => set (st1 := x) in * end.
    assert (Hl1 : pool st1 !! t =
                  Some (GKeepLock key (K_go (sessionID l) (doneChan l) (S (nextChan (shared st))))))
      by apply lookup_insert_eq.
    pose proof (KeepLock_renewal_fails t key (sessionID l) e (doneChan l)
                  (S (nextChan (shared st))) o oe oe (shared st1) Hp Hsid Hoe Hrecv) as H2.
    pose proof (grun_run _ _ _ _ _ _ Hl1 H2) as R2.
    exists (S (nextChan (shared st))), st1. eexists.
    split_and!; [exact R1 | exact Hl1 | | | exact R2 | ..].
    + intros Hin. apply Hse in Hin. lia.
    + apply Hacq in Hk. lia.
    + simpl. apply lookup_insert_eq.
    + reflexivity.
    + reflexivity.
    + reflexivity.
    + reflexivity.
    + reflexivity.
  - intros st t key sid e done errc o oe Hl Hp Hsid Hoe Hrecv.
    pose proof (KeepLock_renewal_fails t key sid e done errc o oe oe (shared st)
                  Hp Hsid Hoe Hrecv) as H2.
    eexists. split; [exact (grun_run _ _ _ _ _ _ Hl H2)|]. simpl.
    rewrite lookup_insert_eq. by split_and!.
  - intros st t key e done errc o Hl Hrecv. unfold step.
    destruct (panicked (shared st)); [done|]. rewrite Hl. simpl. by rewrite Hrecv.
Qed.

Lemma X11_KeepLock_held_renewal_error_witness :
  ∃ errc st1 st2,
    run (EvStep 1 <$> [ok ""; ok ""; ok ""]) held_keep = Some st1 ∧
    pool st1 !! 1 = Some (GKeepLock "k" (K_go "s1" 0 errc)) ∧
    (errc ∉ (sent (shared held_keep)).*1) ∧ errc ≠ 0 ∧
    run (EvStep 1 <$> [ok ""; fails "session expired"; fails "session expired"]) st1
      = Some st2 ∧
    pool st2 !! 1 = Some (GKeepLock "k" (K_end 0 errc)) ∧
    sent (shared st2) = (errc, ErrBackend "session expired") :: sent (shared held_keep) ∧
    calls (shared st2) =
      SessionRenewPeriodic (RenewPeriod (Cfg (shared held_keep))) "s1" 0
        :: calls (shared held_keep) ∧
    closes (shared st2) = closes (shared held_keep) ∧
    acquiredlocks (shared st2) = acquiredlocks (shared held_keep) ∧
    attemtinglocks (shared st2) = attemtinglocks (shared held_keep).
Proof.
  apply (proj1 X11_KeepLock_held_renewal_error held_keep 1 "k" "session expired"
           (mkLocks "s1" 0) (ok "") (fails "session expired")); try reflexivity.
  - exact (reachable_run _ _ _ initial_lock_keep_unlock run_held_keep).
  - discriminate.
Defined.

(** [Unlock] of a held key in two stretches: up to the [close] (three
    steps), and the two calls to Consul, the removal and the return (four). *)
Lemma Unlock_held_close_grun (t : nat) (key : string) (l : locks)
    (o1 o2 o3 : oracle) (s : Shared) :
  m s = None → panicked s = false → acquiredlocks s !! key = Some l →
  doneChan l ∉ closes s →
  grun t [o1; o2; o3] (GUnlock key U_start) s =
    Some (GUnlock key (U_hdelete l),
          set_closes (doneChan l :: closes s) (set_m (Some t) s)).
Proof.
  intros Hm Hp Hacq Hcl. destruct s as [cfg acq att mu nc cl se ca pa].
  simpl in *. subst. simpl. rewrite Hacq. simpl.
  unfold close_chan. simpl. rewrite bool_decide_eq_false_2 by done. reflexivity.
Qed.

Lemma Unlock_held_rest_grun (t t' : nat) (key : string) (l : locks)
    (o1 o2 o3 o4 : oracle) (s : Shared) :
  m s = Some t' → panicked s = false → o_err o1 = None → o_err o2 = None →
  grun t [o1; o2; o3; o4] (GUnlock key (U_hdelete l)) s =
    Some (GUnlock key (U_done None),
          set_m None
            (set_acquiredlocks (delete key (acquiredlocks s))
               (set_calls (SessionDestroy (sessionID l) :: KVDelete key :: calls s) s))).
Proof.
  intros Hm Hp Ho1 Ho2. destruct s as [cfg acq att mu nc cl se ca pa].
  simpl in *. subst. simpl. rewrite Ho1. simpl. rewrite Ho2. reflexivity.
Qed.

(** The goroutine of [KeepLock] on a held key when [RenewPeriodic]
    returns nil: it ends there. *)
Lemma KeepLock_renewal_ends (t : nat) (key sid : string) (done errc : nat)
    (o1 o2 : oracle) (s : Shared) :
  panicked s = false → sid ≠ "" → o_err o2 = None →
  grun t [o1; o2] (GKeepLock key (K_go sid done errc)) s =
    Some (GKeepLock key (K_end done errc),
          set_calls (SessionRenewPeriodic (RenewPeriod (Cfg s)) sid done :: calls s) s).
Proof.
  intros Hp Hsid Ho2. destruct s as [cfg acq att mu nc cl se ca pa]. simpl in *. subst.
  destruct (decide (sid = "")) as [|_]; [done|]. simpl. rewrite Ho2. reflexivity.
Qed.

(** X12: the goroutine of [KeepLock] on a held key beside a successful
    [Unlock] of that key, the goroutine running while [Unlock] holds the
    mutex. [Unlock] closes, once, the very channel the goroutine hands to
    [RenewPeriodic]; when [RenewPeriodic] returns nil the goroutine ends
    without sending anything on the error channel and without closing
    anything; and [Unlock] completes, with the key out of
    [acquiredlocks]. *)
Theorem X12_Unlock_ends_renewal (st : State) (t1 t2 : nat) (key sid : string)
    (done errc : nat) (o : oracle) :
  t1 ≠ t2 →
  pool st !! t1 = Some (GKeepLock key (K_go sid done errc)) →
  pool st !! t2 = Some (GUnlock key U_start) →
  m (shared st) = None → panicked (shared st) = false →
  acquiredlocks (shared st) !! key = Some (mkLocks sid done) → sid ≠ "" →
  done ∉ closes (shared st) → o_err o = None →
  ∃ st', run ((EvStep t2 <$> replicate 3 o) ++ (EvStep t1 <$> replicate 2 o) ++
              (EvStep t2 <$> replicate 4 o)) st = Some st' ∧
    pool st' !! t2 = Some (GUnlock key (U_done None)) ∧
    pool st' !! t1 = Some (GKeepLock key (K_end done errc)) ∧
    sent (shared st') = sent (shared st) ∧
    closes (shared st') = done :: closes (shared st) ∧
    calls (shared st') =
      SessionDestroy sid :: KVDelete key ::
        SessionRenewPeriodic (RenewPeriod (Cfg (shared st))) sid done :: calls (shared st) ∧
    acquiredlocks (shared st') !! key = None ∧
    m (shared st') = None ∧ panicked (shared st') = false.
Proof.
  intros Hne Hl1 Hl2 Hm Hp Hacq Hsid Hcl Ho.
  pose proof (Unlock_held_close_grun t2 key _ o o o _ Hm Hp Hacq Hcl) as Hg2.
  pose proof (grun_run _ _ _ _ _ _ Hl2 Hg2) as R2.
  match type of R2 with _ = Some ?x => set (st1 := x) in * end.
  assert (Hl1' : pool st1 !! t1 = Some (GKeepLock key (K_go sid done errc))).
  { simpl. by rewrite lookup_insert_ne. }
  pose proof (KeepLock_renewal_ends t1 key sid done errc o o (shared st1) Hp Hsid Ho) as Hg1.
  pose proof (grun_run _ _ _ _ _ _ Hl1' Hg1) as R1.
  match type of R1 with _ = Some ?x => set (st2 := x) in * end.
  assert (Hl2' : pool st2 !! t2 = Some (GUnlock key (U_hdelete (mkLocks sid done)))).
  { simpl. by rewrite lookup_insert_ne, lookup_insert_eq. }
  pose proof (Unlock_held_rest_grun t2 t2 key (mkLocks sid done) o o o o (shared st2)
                eq_refl Hp Ho Ho) as Hg3.
  pose proof (grun_run _ _ _ _ _ _ Hl2' Hg3) as R3.
  eexists. split.
  { rewrite run_app. change (replicate 3 o) with [o; o; o]. rewrite R2.
    cbn [mbind option_bind]. rewrite run_app. change (replicate 2 o) with [o; o].
    rewrite R1. exact R3. }
  simpl. rewrite lookup_insert_eq, lookup_insert_ne, lookup_insert_eq, lookup_delete_eq by done.
  by split_and!.
Qed.

Lemma run_keep_started : run (replicate 3 (EvStep 1 (ok ""))) held_keep = Some keep_started.
Proof. vm_compute. reflexivity. Qed.

Lemma X12_Unlock_ends_renewal_witness :
  ∃ st', run ((EvStep 2 <$> replicate 3 (ok "")) ++ (EvStep 1 <$> replicate 2 (ok "")) ++
              (EvStep 2 <$> replicate 4 (ok ""))) keep_started = Some st' ∧
    pool st' !! 2 = Some (GUnlock "k" (U_done None)) ∧
    pool st' !! 1 = Some (GKeepLock "k" (K_end 0 2)) ∧
    sent (shared st') = sent (shared keep_started) ∧
    closes (shared st') = 0 :: closes (shared keep_started) ∧
    calls (shared st') =
      SessionDestroy "s1" :: KVDelete "k" ::
        SessionRenewPeriodic (RenewPeriod (Cfg (shared keep_started))) "s1" 0
        :: calls (shared keep_started) ∧
    acquiredlocks (shared st') !! "k" = None ∧
    m (shared st') = None ∧ panicked (shared st') = false.
Proof.
  apply (X12_Unlock_ends_renewal keep_started 1 2 "k" "s1" 0 2 (ok "")); try reflexivity.
  - discriminate.
  - discriminate.
  - apply not_elem_of_nil.
Defined.

(** ** [WithTargets] of the gNMI action *)

Section WithTargetsFacts.
Context {TargetConfig targetConfig : Type}.
Variable DecodeConfig : TargetConfig → targetConfig * option string.

Lemma WithTargets_map (l : list (string * TargetConfig)) :
  ∀ g, NoDup l.*1 →
  targetsConfigs (WithTargets DecodeConfig l g) =
    list_to_map (prod_map id (λ tc, (DecodeConfig tc).1) <$> l) ∪ targetsConfigs g.
Proof.
  induction l as [|[n tc] l IH]; intros g Hnd.
  - simpl. by rewrite (left_id_L ∅ (∪)).
  - apply NoDup_cons in Hnd as [Hn Hnd].
    change (WithTargets DecodeConfig ((n, tc) :: l) g)
      with (WithTargets DecodeConfig l (WithTargets_body DecodeConfig g (n, tc))).
    rewrite IH by done. unfold WithTargets_body.
    destruct (DecodeConfig tc) as [ltc err] eqn:E. simpl. rewrite E. simpl.
    rewrite <- insert_union_l. symmetry. apply insert_union_r.
    apply not_elem_of_list_to_map. by rewrite <- list_fmap_compose.
Qed.

Lemma WithTargets_logger (l : list (string * TargetConfig)) :
  ∀ g, logger (WithTargets DecodeConfig l g) ≡ₚ
         omap (λ e, (DecodeConfig e.2).2) l ++ logger g.
Proof.
  induction l as [|[n tc] l IH]; intros g; [reflexivity|].
  change (WithTargets DecodeConfig ((n, tc) :: l) g)
    with (WithTargets DecodeConfig l (WithTargets_body DecodeConfig g (n, tc))).
  rewrite IH. unfold WithTargets_body. simpl.
  destruct (DecodeConfig tc) as [ltc [msg|]]; simpl; [|reflexivity].
  by rewrite Permutation_middle.
Qed.

(** X13: whatever order the [range] takes, after [WithTargets] every
    target of the argument has an entry in [targetsConfigs], holding what
    [DecodeConfig] left in it even when the decoding failed; the entries
    of other names are kept; and one line is logged per failed decoding. *)
Theorem X13_WithTargets_keeps_every_target (tcs : gmap string TargetConfig)
    (l : list (string * TargetConfig)) (g : gnmiAction targetConfig) :
  range_order tcs l →
  targetsConfigs (WithTargets DecodeConfig l g) =
    ((λ tc, (DecodeConfig tc).1) <$> tcs) ∪ targetsConfigs g ∧
  (∀ n tc, tcs !! n = Some tc →
     targetsConfigs (WithTargets DecodeConfig l g) !! n = Some (DecodeConfig tc).1) ∧
  (∀ n, tcs !! n = None →
     targetsConfigs (WithTargets DecodeConfig l g) !! n = targetsConfigs g !! n) ∧
  logger (WithTargets DecodeConfig l g) ≡ₚ
    omap (λ e, (DecodeConfig e.2).2) (map_to_list tcs) ++ logger g.
Proof.
  unfold range_order. intros Hl.
  assert (Hnd : NoDup l.*1) by (rewrite Hl; apply NoDup_fst_map_to_list).
  assert (Hmap : targetsConfigs (WithTargets DecodeConfig l g) =
                 ((λ tc, (DecodeConfig tc).1) <$> tcs) ∪ targetsConfigs g).
  { rewrite WithTargets_map by done. f_equal.
    rewrite list_to_map_fmap. f_equal.
    rewrite (list_to_map_proper l (map_to_list tcs)) by done.
    apply list_to_map_to_list. }
  split_and!; [exact Hmap | | |].
  - intros n tc Hn. rewrite Hmap. apply lookup_union_Some_l.
    by rewrite lookup_fmap, Hn.
  - intros n Hn. rewrite Hmap. apply lookup_union_r. by rewrite lookup_fmap, Hn.
  - rewrite WithTargets_logger. by rewrite Hl.
Qed.
End WithTargetsFacts.

Lemma X13_WithTargets_keeps_every_target_witness :
  let decode := λ tc : string, if decide (tc = "") then (0, Some "empty")
                               else (String.length tc, None) in
  let tcs : gmap string string := {[ "r1" := "10.0.0.1:57400"; "r2" := "" ]} in
  let g := mkGnmiAction {[ "r0" := 7 ]} [] in
  targetsConfigs (WithTargets decode (map_to_list tcs) g) =
    ((λ tc, (decode tc).1) <$> tcs) ∪ targetsConfigs g ∧
  (∀ n tc, tcs !! n = Some tc →
     targetsConfigs (WithTargets decode (map_to_list tcs) g) !! n = Some (decode tc).1) ∧
  (∀ n, tcs !! n = None →
     targetsConfigs (WithTargets decode (map_to_list tcs) g) !! n = targetsConfigs g !! n) ∧
  logger (WithTargets decode (map_to_list tcs) g) ≡ₚ
    omap (λ e, (decode e.2).2) (map_to_list tcs) ++ logger g.
Proof.
  intros decode tcs g.
  apply (X13_WithTargets_keeps_every_target decode tcs (map_to_list tcs) g).
  unfold range_order. reflexivity.
Defined.

(** ** [Stop] with a key held stops every other call too *)

Lemma initial_lock_stop_unlock : initial lock_stop_unlock.
Proof. apply initial_pool. apply (bool_decide_unpack _). by vm_compute. Qed.

Lemma run_stop_locked :
  run (lock_evs ++ [EvStep 1 (ok "")]) lock_stop_unlock = Some stop_locked.
Proof. vm_compute. reflexivity. Qed.

(** With the mutex locked by someone else, a call that is outside every
    critical section cannot return at its next step. *)
Lemma gstep_waits (t : nat) (o : oracle) (g g' : goroutine) (s s' : Shared) :
  gstep t o g s = Some (g', s') → holds g = false → m s ≠ None →
  returned g = false → returned g' = false.
Proof. intros H Hh Hm Hr. step_cases H; simpl in *; congruence. Qed.

Lemma stop_waiting_frozen (t : nat) (A : gmap string locks) (ev : event) (st st' : State) :
  A ≠ ∅ → stop_waiting t A st → step ev st = Some st' →
  attemtinglocks (shared st') = attemtinglocks (shared st) ∧
  ∀ t2 g, pool st !! t2 = Some g → returned g = false →
          ∃ g', pool st' !! t2 = Some g' ∧ returned g' = false.
Proof.
  intros HA Hw Hstep. pose proof Hw as (Hmu & Hm & Hacq & Hpc).
  destruct ev as [t1 o | t1].
  - apply step_EvStep in Hstep as (_ & g & g' & s' & Hg & Hs & ->). simpl.
    destruct (decide (t1 = t)) as [-> | Hne].
    + (* Stop itself: it can only enter the call of Unlock *)
      assert (s' = shared st ∧ returned g' = false) as [-> Hret].
      { destruct Hpc as [Hpc | (k & Hk & Hpc)]; rewrite Hpc in Hg; injection Hg as <-.
        - simpl in Hs. destruct (decide _); [by injection Hs as <- <-|].
          destruct (decide _); [by injection Hs as <- <-|discriminate].
        - simpl in Hs. unfold mutex_lock in Hs. by rewrite Hm in Hs. }
      split; [done|]. intros t2 g2 Hl2 Hr2.
      destruct (decide (t = t2)) as [<- | Hne2].
      * exists g'. by rewrite lookup_insert_eq.
      * exists g2. by rewrite lookup_insert_ne.
    + destruct (Hmu t1 g Hg) as [_ Hh].
      assert (Hout : holds g = false).
      { destruct (holds g); [|done]. specialize (Hh eq_refl). congruence. }
      destruct (gstep_registry _ _ _ _ _ _ Hs Hout) as [_ Hatt].
      split; [done|]. intros t2 g2 Hl2 Hr2.
      destruct (decide (t1 = t2)) as [<- | Hne2].
      * exists g'. rewrite lookup_insert_eq. split; [done|].
        rewrite Hg in Hl2. injection Hl2 as <-.
        eapply gstep_waits; [exact Hs | exact Hout | congruence | exact Hr2].
      * exists g2. by rewrite lookup_insert_ne.
  - apply step_EvCancel in Hstep as (_ & key & val & ctx & pc & Hg & ->). simpl.
    split; [done|]. intros t2 g2 Hl2 Hr2.
    destruct (decide (t1 = t2)) as [<- | Hne2].
    + eexists. rewrite lookup_insert_eq. split; [done|].
      rewrite Hg in Hl2. by injection Hl2 as <-.
    + exists g2. by rewrite lookup_insert_ne.
Qed.

(** X14: once [Stop] has locked the mutex over a non-empty
    [acquiredlocks], the whole locker is stopped: in every run from there
    both maps stay as they are, and no call that has not returned yet
    ([Stop] itself, and every [Lock], [Unlock] or [KeepLock]) ever returns. *)
Theorem X14_Stop_blocks_every_call (st : State) (t : nat) (evs : list event) (st' : State) :
  reachable st → pool st !! t = Some (GStop (S_range ∅)) →
  m (shared st) = Some t → acquiredlocks (shared st) ≠ ∅ →
  run evs st = Some st' →
  acquiredlocks (shared st') = acquiredlocks (shared st) ∧
  attemtinglocks (shared st') = attemtinglocks (shared st) ∧
  ∀ t2 g, pool st !! t2 = Some g → returned g = false →
          ∃ g', pool st' !! t2 = Some g' ∧ returned g' = false.
Proof.
  intros Hr Hl Hm HA Hrun.
  assert (Hw : stop_waiting t (acquiredlocks (shared st)) st).
  { apply Inv_reachable in Hr as (Hmu & _). split_and!; auto. }
  clear Hr Hl Hm. revert st Hw HA Hrun.
  induction evs as [|ev evs IH]; intros st Hw HA Hrun; simpl in Hrun.
  - injection Hrun as <-. split_and!; eauto.
  - destruct (step ev st) as [st1|] eqn:E; [|discriminate]. simpl in Hrun.
    destruct (stop_waiting_step t _ ev st st1 HA Hw E) as [Hw1 _].
    destruct (stop_waiting_frozen t _ ev st st1 HA Hw E) as [Hatt Hret].
    pose proof Hw1 as (_ & _ & Hacq1 & _).
    rewrite <- Hacq1 in Hw1, HA.
    destruct (IH st1 Hw1 HA Hrun) as (Ha & Hb & Hc).
    split_and!; [congruence | congruence |].
    intros t2 g Hg Hrg. destruct (Hret t2 g Hg Hrg) as (g1 & Hg1 & Hr1). eauto.
Qed.

Lemma X14_Stop_blocks_every_call_witness :
  let st' := mkState (shared stop_locked)
               (<[1 := GStop (S_unlock ∅ "k" U_start)]> (pool stop_locked)) in
  acquiredlocks (shared st') = acquiredlocks (shared stop_locked) ∧
  attemtinglocks (shared st') = attemtinglocks (shared stop_locked) ∧
  ∀ t2 g, pool stop_locked !! t2 = Some g → returned g = false →
          ∃ g', pool st' !! t2 = Some g' ∧ returned g' = false.
Proof.
  intros st'.
  apply (X14_Stop_blocks_every_call stop_locked 1 [EvStep 1 (yields "k")] st').
  - exact (reachable_run _ _ _ initial_lock_stop_unlock run_stop_locked).
  - reflexivity.
  - reflexivity.
  - intros H. apply (f_equal (λ a : gmap string locks, a !! "k")) in H. discriminate.
  - vm_compute. reflexivity.
Defined.

(** ** More on the defaults *)

(** X15: after [setDefaults] the session TTL and the retry timer are
    positive; a TTL that is unset or negative has become 10 s, a retry
    timer that is unset or negative 2 s, and with the default TTL an unset
    renew period has become 5 s. *)
Theorem X15_setDefaults_ttl_and_retry (c : config) :
  (0 < SessionTTL (setDefaults c))%Z ∧ (0 < RetryTimer (setDefaults c))%Z ∧
  ((SessionTTL c <= 0)%Z → SessionTTL (setDefaults c) = (10 * Second)%Z) ∧
  ((RetryTimer c <= 0)%Z → RetryTimer (setDefaults c) = (2 * Second)%Z) ∧
  ((SessionTTL c <= 0)%Z → (RenewPeriod c <= 0)%Z →
   RenewPeriod (setDefaults c) = (5 * Second)%Z).
Proof.
  split; [apply setDefaults_SessionTTL_pos|].
  split; [apply setDefaults_RetryTimer_pos|].
  assert (Httl : (SessionTTL c <= 0)%Z → SessionTTL (setDefaults c) = (10 * Second)%Z).
  { intros H. rewrite setDefaults_SessionTTL.
    by destruct (Z.leb_spec (SessionTTL c) 0); [|lia]. }
  split_and!; [exact Httl | |].
  - intros H. rewrite setDefaults_RetryTimer.
    by destruct (Z.leb_spec (RetryTimer c) 0); [|lia].
  - intros Ht Hp. rewrite setDefaults_RenewPeriod, (Httl Ht).
    destruct (Z.leb_spec (RenewPeriod c) 0); [reflexivity | lia].
Qed.

(** X16: the assignments of [setDefaults] stay within [int64]: from
    durations that are [int64] values it computes durations that are
    [int64] values, so nothing wraps around. *)
Theorem X16_setDefaults_no_overflow (c : config) :
  int64_range (SessionTTL c) → int64_range (Delay c) →
  int64_range (RetryTimer c) → int64_range (RenewPeriod c) →
  int64_range (SessionTTL (setDefaults c)) ∧ int64_range (Delay (setDefaults c)) ∧
  int64_range (RetryTimer (setDefaults c)) ∧ int64_range (RenewPeriod (setDefaults c)).
Proof. apply setDefaults_int64. Qed.

Lemma X16_setDefaults_no_overflow_witness :
  let c := mkConfig "" (2 ^ 63 - 1) (- 2 ^ 63) (2 ^ 63 - 1) (2 ^ 63 - 1) false in
  int64_range (SessionTTL (setDefaults c)) ∧ int64_range (Delay (setDefaults c)) ∧
  int64_range (RetryTimer (setDefaults c)) ∧ int64_range (RenewPeriod (setDefaults c)).
Proof.
  intros c. apply (X16_setDefaults_no_overflow c); unfold int64_range; simpl; lia.
Defined.

(** ** Two [Lock] calls on one key *)

Lemma initial_two_locks : initial two_locks.
Proof. apply initial_pool. apply (bool_decide_unpack _). by vm_compute. Qed.

Lemma run_two_locks_contending :
  run (contend_evs ++ [EvCancel 1]) two_locks = Some two_locks_contending.
Proof. vm_compute. reflexivity. Qed.

(** X17: [attemtinglocks] has one entry per key, not per call, and the
    deferred function of any [Lock] call on the key deletes it. While one
    [Lock] is contending with its entry recorded, a second [Lock] on the
    same key that returns (here at once, its context being cancelled)
    removes that entry; an [Unlock] of the key then returns "unknown key"
    and closes nothing, and the first [Lock] goes on contending. *)
Theorem X17_second_Lock_removes_the_attempt (st : State) (t1 t2 t3 : nat)
    (key val1 val2 sid : string) (ch : nat) (o : oracle) :
  t1 ≠ t2 → t1 ≠ t3 → t2 ≠ t3 →
  reachable st →
  pool st !! t1 = Some (GLock key val1 false (L_select ch)) →
  pool st !! t2 = Some (GLock key val2 true L_start) →
  pool st !! t3 = Some (GUnlock key U_start) →
  m (shared st) = None → panicked (shared st) = false →
  acquiredlocks (shared st) !! key = None →
  attemtinglocks (shared st) !! key = Some (mkLocks sid ch) →
  ∃ st', run ((EvStep t2 <$> replicate 5 o) ++ (EvStep t3 <$> replicate 3 o)) st = Some st' ∧
    pool st' !! t2 = Some (GLock key val2 true (L_done (false, Some ErrContext))) ∧
    pool st' !! t3 = Some (GUnlock key (U_done (Some ErrUnknownKey))) ∧
    pool st' !! t1 = Some (GLock key val1 false (L_select ch)) ∧
    attemtinglocks (shared st') !! key = None ∧
    closes (shared st') = closes (shared st) ∧
    calls (shared st') = calls (shared st).
Proof.
  intros H12 H13 H23 Hr Hl1 Hl2 Hl3 Hm Hp Hacq Hatt.
  apply Inv_reachable in Hr as (_ & _ & _ & [_ (_ & _ & Hcl & _)] & _).
  assert (Hfresh : nextChan (shared st) ∉ closes (shared st)).
  { intros Hin. apply Hcl in Hin. lia. }
  pose proof (Lock_cancelled_start_grun t2 key val2 o o o o o _ Hm Hp Hfresh) as Hg2.
  pose proof (grun_run _ _ _ _ _ _ Hl2 Hg2) as R2.
  match type of R2 with _ = Some ?x => set (st1 := x) in * end.
  assert (Hl3' : pool st1 !! t3 = Some (GUnlock key U_start)).
  { simpl. by rewrite lookup_insert_ne. }
  assert (Hatt1 : attemtinglocks (shared st1) !! key = None) by apply lookup_delete_eq.
  pose proof (Unlock_unknown_grun t3 key o o o (shared st1) eq_refl eq_refl Hacq Hatt1) as Hg3.
  pose proof (grun_run _ _ _ _ _ _ Hl3' Hg3) as R3.
  eexists. split.
  { rewrite run_app. change (replicate 5 o) with [o; o; o; o; o]. rewrite R2. exact R3. }
  simpl. split_and!; try done.
  - by rewrite lookup_insert_ne, lookup_insert_eq.
  - by rewrite lookup_insert_eq.
  - by rewrite !lookup_insert_ne.
Qed.

Lemma X17_second_Lock_removes_the_attempt_witness :
  ∃ st', run ((EvStep 1 <$> replicate 5 (ok "")) ++ (EvStep 2 <$> replicate 3 (ok "")))
           two_locks_contending = Some st' ∧
    pool st' !! 1 = Some (GLock "k" "w" true (L_done (false, Some ErrContext))) ∧
    pool st' !! 2 = Some (GUnlock "k" (U_done (Some ErrUnknownKey))) ∧
    pool st' !! 0 = Some (GLock "k" "v" false (L_select 0)) ∧
    attemtinglocks (shared st') !! "k" = None ∧
    closes (shared st') = closes (shared two_locks_contending) ∧
    calls (shared st') = calls (shared two_locks_contending).
Proof.
  apply (X17_second_Lock_removes_the_attempt two_locks_contending 0 1 2 "k" "v" "w" "s1" 0
           (ok "")); try reflexivity; try discriminate.
  exact (reachable_run _ _ _ initial_two_locks run_two_locks_contending).
Defined.
